(** * Santismo Christmas Horror Hunt: the hunt progression engine of [src/App.jsx]

    A shallow embedding of the component's pure helpers ([normalize],
    [zoneGroup], [mapRevealLine]) and of the event handlers of
    [SantismoHorrorHunt] ([whisper], [showMapForNextStep], [onSubmit],
    [reset], [jumpTo]), with the timers they schedule, of [pickVoice],
    [useTypewriter], [useLocalStorageState] and the drawing of
    [HauntedMapOverlay], followed by the properties of the hunt's
    specification and further properties of the code.

    Conventions.
    - A JavaScript string that is inspected character by character is a list
      of UTF-16 code units ([jsstring]); text that is only passed around
      (zone ids, narrated lines, titles) is a [string].
    - A JavaScript integer is a [Z]; [undefined] read from an array or an
      optional field is [None].
    - [Math.random()] is a rational [r] with [0 <= r < 1]; the rounding of the
      floating-point product [r * length] is not modelled.
    - [setState] calls of one handler are applied together, and a handler
      always sees the state of the last render. *)

From Stdlib Require Import ZArith NArith List String Ascii QArith Qround Lia Bool.
Import ListNotations.

Local Open Scope Z_scope.

(** ** JavaScript primitives used by the component *)

Module Js.

(** A string as its UTF-16 code units. *)
Definition jsstring := list N.

(** The code units of an ASCII literal. *)
Definition str (s : string) : jsstring :=
  List.map N_of_ascii (list_ascii_of_string s).

(** The values the component passes where a string is expected. *)
Inductive value :=
| JUndefined
| JNull
| JString (s : jsstring).

(** [v || ""] followed by [.toString()]: the falsy values ([undefined],
    [null] and the empty string) give the empty string. *)
Definition orEmptyToString (v : value) : jsstring :=
  match v with
  | JUndefined | JNull => []
  | JString s => s
  end.

(** ECMAScript WhiteSpace and LineTerminator code points: what [\s] matches
    and what [trim] removes. *)
Definition isWhiteSpace (c : N) : bool :=
  existsb (N.eqb c)
    [0x0009; 0x000A; 0x000B; 0x000C; 0x000D; 0x0020; 0x00A0; 0x1680;
     0x2028; 0x2029; 0x202F; 0x205F; 0x3000; 0xFEFF]%N
  || ((0x2000 <=? c) && (c <=? 0x200A))%N.

Fixpoint trimStart (s : jsstring) : jsstring :=
  match s with
  | [] => []
  | c :: rest => if isWhiteSpace c then trimStart rest else s
  end.

Definition trimEnd (s : jsstring) : jsstring := rev (trimStart (rev s)).

(** [String.prototype.trim] *)
Definition trim (s : jsstring) : jsstring := trimEnd (trimStart s).

(** [String.prototype.toLowerCase], code unit by code unit. The mapping is
    exact on ASCII and on the two code points outside ASCII whose lower-case
    form contains an ASCII letter (KELVIN SIGN and LATIN CAPITAL LETTER I
    WITH DOT ABOVE). Any other code unit is left as it is: its lower-case
    form lies, like the unit itself, outside [a-z0-9\s-], so the replace
    that follows in [normalize] removes either. *)
Definition lowerUnit (c : N) : list N :=
  if ((0x41 <=? c) && (c <=? 0x5A))%N then [c + 0x20]%N
  else if (c =? 0x212A)%N then [0x6B]%N
  else if (c =? 0x0130)%N then [0x69; 0x0307]%N
  else [c].

Definition toLowerCase (s : jsstring) : jsstring := flat_map lowerUnit s.

(** The character class [[a-z0-9\s-]]. *)
Definition isKept (c : N) : bool :=
  ((0x61 <=? c) && (c <=? 0x7A))%N
  || ((0x30 <=? c) && (c <=? 0x39))%N
  || isWhiteSpace c
  || (c =? 0x2D)%N.

(** [.replace(/[^a-z0-9\s-]/g, "")] *)
Definition stripDisallowed (s : jsstring) : jsstring := filter isKept s.

(** [.replace(/\s+/g, " ")]: every maximal run of white space becomes one
    space. [inRun] tells that the previous code unit was white space. *)
Fixpoint collapseFrom (inRun : bool) (s : jsstring) : jsstring :=
  match s with
  | [] => []
  | c :: rest =>
      if isWhiteSpace c
      then (if inRun then collapseFrom true rest
            else 0x20%N :: collapseFrom true rest)
      else c :: collapseFrom false rest
  end.

Definition collapseWhitespace (s : jsstring) : jsstring := collapseFrom false s.

(** [xs[i]]: [undefined] outside of the array. *)
Definition index {A : Type} (xs : list A) (i : Z) : option A :=
  if i <? 0 then None else nth_error xs (Z.to_nat i).

(** [xs.length] *)
Definition len {A : Type} (xs : list A) : Z := Z.of_nat (List.length xs).

(** [xs.slice(0, e)]: a negative [e] counts from the end of the array. *)
Definition slice0 {A : Type} (xs : list A) (e : Z) : list A :=
  let k := if e <? 0 then Z.max (len xs + e) 0 else Z.min e (len xs) in
  firstn (Z.to_nat k) xs.

(** [Math.floor(r * n)] for a random number [r]. *)
Definition randomIndex (r : Q) (n : Z) : Z := Qfloor (r * inject_Z n).

(** [xs[Math.floor(Math.random() * xs.length)]] *)
Definition pick {A : Type} (xs : list A) (r : Q) : option A :=
  index xs (randomIndex r (len xs)).

End Js.

Import Js.

(** ** Answer normalizer *)

(** [normalize(s)] *)
Definition normalize (s : value) : jsstring :=
  collapseWhitespace
    (stripDisallowed
       (toLowerCase
          (trim (orEmptyToString s)))).

(** ** Zones of the house *)

Local Open Scope string_scope.

(** A rectangle of the map overlay. *)
Record Rect := { x : Z; y : Z; w : Z; h : Z }.

(** [ZONES]: the defined location ids with their place on the map. *)
Definition ZONES : list (string * Rect) :=
  [ (* upstairs cluster *)
    ("up_corridor", {| x := 52; y := 22; w := 86; h := 20 |});
    ("up_bedroom_current", {| x := 16; y := 10; w := 56; h := 28 |});
    ("up_guest_bedroom", {| x := 16; y := 44; w := 56; h := 30 |});
    ("up_guest_closet", {| x := 76; y := 48; w := 36; h := 18 |});
    ("up_master_bedroom", {| x := 116; y := 42; w := 66; h := 34 |});
    ("up_master_bath", {| x := 146; y := 78; w := 36; h := 22 |});
    ("stairs_transition", {| x := 96; y := 18; w := 18; h := 10 |});
    (* downstairs cluster *)
    ("entry_spine", {| x := 72; y := 122; w := 54; h := 20 |});
    ("study", {| x := 20; y := 112; w := 44; h := 30 |});
    ("kitchen", {| x := 84; y := 148; w := 66; h := 36 |});
    ("christmas_room_fireplace", {| x := 154; y := 146; w := 66; h := 38 |});
    ("christmas_room_sofa", {| x := 154; y := 188; w := 66; h := 28 |});
    ("formal_living_empty", {| x := 20; y := 150; w := 54; h := 40 |});
    ("down_bath", {| x := 64; y := 188; w := 32; h := 24 |});
    ("laundry", {| x := 20; y := 196; w := 44; h := 26 |});
    ("back_door", {| x := 110; y := 188; w := 38; h := 18 |});
    (* outside *)
    ("yard_path", {| x := 92; y := 226; w := 60; h := 12 |});
    ("shed_final", {| x := 168; y := 232; w := 44; h := 26 |}) ].

(** The keys of [ZONES]. *)
Definition definedZone (zoneId : string) : Prop := In zoneId (List.map fst ZONES).

(** [zoneGroup(zoneId)]. The argument is [None] for [undefined]; the empty
    string is falsy as well. *)
Definition zoneGroup (zoneId : option string) : string :=
  match zoneId with
  | None => "unknown"
  | Some z =>
      if z =? "" then "unknown"
      else if prefix "up_" z || (z =? "stairs_transition") then "up"
      else if (z =? "yard_path") || (z =? "shed_final") then "out"
      else "down"
  end.

(** ** Narration selector for the map reveal *)

(** The special beats of [mapRevealLine]: one fixed line per step id. *)
Definition specialBeat (nextStepId : Z) : option string :=
  if (nextStepId =? 7)%Z then
    Some "You‚Äôve finished upstairs‚Ä¶ good. Let‚Äôs see what waits below."
  else if (nextStepId =? 10)%Z then
    Some "Ah‚Ä¶ warmth. Fire is comforting, isn‚Äôt it? It hides things so well."
  else if (nextStepId =? 16)%Z then
    Some "You‚Äôre leaving the house now‚Ä¶ don‚Äôt worry. It‚Äôs still watching."
  else if (nextStepId =? 17)%Z then
    Some "I didn‚Äôt hide this far away‚Ä¶ I hid it on purpose."
  else if (nextStepId =? 18)%Z then
    Some "You made it. The house accepts you‚Ä¶ and so do I."
  else None.

(** [const pool] *)
Definition pool : list string :=
  [ "You were here‚Ä¶ now you‚Äôre not.";
    "The house remembers your footsteps.";
    "Rooms change. So do people.";
    "You‚Äôre getting closer‚Ä¶ I can feel it.";
    "Not that room anymore." ].

(** [const directional], after its three conditional pushes. *)
Definition directional (fromG toG : string) : list string :=
  (if (fromG =? "up") && (toG =? "down")
   then ["Downstairs now‚Ä¶ good choice."] else [])
  ++ (if negb (fromG =? "out") && (toG =? "out")
      then ["Outside‚Ä¶ where my laugh travels farther."] else [])
  ++ (if toG =? "up" then ["Back upstairs? Brave."] else []).

(** [const all]: the lines the general branch draws from. *)
Definition allLines (fromG toG : string) : list string :=
  let d := directional fromG toG in
  if (len d =? 0)%Z then pool else d ++ pool.

(** [mapRevealLine({ nextStepId, fromZone, toZone })], with the random
    number [r] it draws. *)
Definition mapRevealLine (nextStepId : Z) (fromZone toZone : option string)
    (r : Q) : option string :=
  match specialBeat nextStepId with
  | Some line => Some line
  | None =>
      let fromG := zoneGroup fromZone in
      let toG := zoneGroup toZone in
      pick (allLines fromG toG) r
  end.

(** ** Hunt definition *)

Record Step := {
  id : Z;
  zone : string;
  title : string;
  riddle : string;
  locationHint : string;
  answer : jsstring;
  santismoLine : string
}.

(** The line feed of the riddles' [\n]. *)
Definition nl : string := String (ascii_of_nat 10) EmptyString.

Definition DEFAULT_STEPS : list Step :=
  [
    {| id := 1;
       zone := "up_corridor";
       title := "The Landing of Ominous Footsteps";
       riddle :=
          "I am not a room, yet I know them all." ++ nl ++
          "I hear footsteps, whispers, late-night calls." ++ nl ++
          "Choices split beneath my stare‚Ä¶" ++ nl ++
          "Begin with me, if you dare.";
       locationHint := "Upstairs corridor / landing";
       answer := str "crossroads";
       santismoLine := "Ho‚Ä¶ ho‚Ä¶ holy matrimony. Type the code word. The house is listening." |};
    {| id := 2;
       zone := "up_bedroom_current";
       title := "The Room You Actually Sleep In";
       riddle :=
          "A kingdom of blankets faces the dawn," ++ nl ++
          "Where nights are stolen and mornings are born." ++ nl ++
          "You rest here now, safe from fright‚Ä¶" ++ nl ++
          "But Santismo watches every night.";
       locationHint := "Bedroom 1/2 (your current bedroom)";
       answer := str "shared dreams";
       santismoLine := "New home. Same bed. Different fate. Code word‚Ä¶ now." |};
    {| id := 3;
       zone := "up_guest_bedroom";
       title := "Guest Chamber of Doom";
       riddle :=
          "A lonely mattress sleeps on the ground," ++ nl ++
          "A lamp sits low without a sound." ++ nl ++
          "This room is quiet‚Ä¶ too quiet, I fear." ++ nl ++
          "Search where visitors someday will be near.";
       locationHint := "Guest bedroom";
       answer := str "spare soul";
       santismoLine := "Ah, the guest room. Where friends sleep‚Ä¶ briefly. Code word." |};
    {| id := 4;
       zone := "up_guest_closet";
       title := "Closet of a Thousand Sweaters";
       riddle :=
          "Fabric hangs like skin on bone," ++ nl ++
          "Outfits waiting, all alone." ++ nl ++
          "I hide between the folds you wear‚Ä¶" ++ nl ++
          "Clothes remember who‚Äôs been there.";
       locationHint := "Guest closet";
       answer := str "hidden threads";
       santismoLine := "I ate three socks to get here. Don‚Äôt ask which three. Code word." |};
    {| id := 5;
       zone := "up_master_bedroom";
       title := "The Empty Master";
       riddle :=
          "No bed. No chair. No laughter yet." ++ nl ++
          "A room untouched‚Ä¶ but not forgotten." ++ nl ++
          "Find the gift where the little TV altar stands." ++ nl ++
          "Tonight, the future stares back.";
       locationHint := "Master bedroom (empty; TV unit)";
       answer := str "unwritten";
       santismoLine := "An empty room is perfect for haunting‚Ä¶ and for beginnings. Code word." |};
    {| id := 6;
       zone := "up_master_bath";
       title := "The Mirror‚Äôs Verdict";
       riddle :=
          "Mirrors judge and water runs," ++ nl ++
          "Steam hides truths you can‚Äôt outrun." ++ nl ++
          "Wash your hands‚Ä¶ wash your past‚Ä¶" ++ nl ++
          "Some reflections always last.";
       locationHint := "Master bathroom";
       answer := str "clean sins";
       santismoLine := "I whisper into mirrors. They whisper back. Code word." |};
    {| id := 7;
       zone := "stairs_transition";
       title := "Descend, Newlyweds";
       riddle :=
          "Down the stairs you go‚Ä¶" ++ nl ++
          "To the spine of the house where arrivals and escapes are born." ++ nl ++
          "Find the next clue where the home gathers itself.";
       locationHint := "Downstairs entry spine / hallway";
       answer := str "threshold";
       santismoLine := "Gravity pulls. So do I. Code word." |};
    {| id := 8;
       zone := "study";
       title := "The Study of Sinister Plans";
       riddle :=
          "A desk. A chair. A place to plot." ++ nl ++
          "Where futures form in quiet thought." ++ nl ++
          "You think you‚Äôre alone when you sit and write‚Ä¶" ++ nl ++
          "I read over shoulders every night.";
       locationHint := "Study / office";
       answer := str "ink pact";
       santismoLine := "Beware‚Ä¶ the stapler. Code word." |};
    {| id := 9;
       zone := "kitchen";
       title := "Kitchen ‚Äî Heart of the House";
       riddle :=
          "Counters gleam like icy lakes," ++ nl ++
          "An island stands‚Äîlonely, proud." ++ nl ++
          "I haunt the place where snacks disappear‚Ä¶" ++ nl ++
          "Midnight knows I‚Äôm always near.";
       locationHint := "Kitchen (island/cabinet/drawer)";
       answer := str "midnight bite";
       santismoLine := "I can smell cookies through walls. Code word." |};
    {| id := 10;
       zone := "christmas_room_fireplace";
       title := "The Christmas Hearth";
       riddle :=
          "Fire burns but does not warn," ++ nl ++
          "Lights glow bright, traditions born." ++ nl ++
          "Stockings gape like hungry mouths‚Ä¶" ++ nl ++
          "This room remembers every oath.";
       locationHint := "Christmas living room (fireplace / tree area)";
       answer := str "ember vow";
       santismoLine := "My laugh echoes in chimneys. Code word." |};
    {| id := 11;
       zone := "christmas_room_sofa";
       title := "Sofa of Sudden Screams";
       riddle :=
          "Cushions creak and secrets hide," ++ nl ++
          "Bodies sink, realities slide." ++ nl ++
          "You sit to watch‚Ä¶ I sit to wait." ++ nl ++
          "Comfort is how I infiltrate.";
       locationHint := "Christmas living room (sofa/TV zone)";
       answer := str "soft trap";
       santismoLine := "If you hear creaking‚Ä¶ that‚Äôs the sofa. Not me. Probably. Code word." |};
    {| id := 12;
       zone := "formal_living_empty";
       title := "The Empty Living Room";
       riddle :=
          "No furniture. No sound. No plan." ++ nl ++
          "A blank page waiting for your hand." ++ nl ++
          "Empty rooms echo the loudest cries‚Äî" ++ nl ++
          "Possibility never dies.";
       locationHint := "Formal living room (currently empty)";
       answer := str "echo chamber";
       santismoLine := "Empty rooms are my favorite. More space for dramatic entrances. Code word." |};
    {| id := 13;
       zone := "down_bath";
       title := "Bathroom Intermission";
       riddle :=
          "Not for rest and not for play," ++ nl ++
          "Yet visited every single day." ++ nl ++
          "Soap and mirrors know too much‚Äî" ++ nl ++
          "I watch each hurried, human touch.";
       locationHint := "Downstairs bathroom";
       answer := str "quick confession";
       santismoLine := "Wash your hands. Wash your soul. Code word." |};
    {| id := 14;
       zone := "laundry";
       title := "Laundry Lab";
       riddle :=
          "Round and round your garments scream," ++ nl ++
          "Sacrificed for something clean." ++ nl ++
          "Socks vanish‚Ä¶ don‚Äôt ask where they go." ++ nl ++
          "I need them. For reasons you don‚Äôt know.";
       locationHint := "Washer / utility room";
       answer := str "spin cycle";
       santismoLine := "The dryer steals socks for my army. Code word." |};
    {| id := 15;
       zone := "back_door";
       title := "Back Door Threshold";
       riddle :=
          "Inside ends. Outside begins." ++ nl ++
          "Cold air bites like sharpened sins." ++ nl ++
          "Pause here once‚Äîbreathe, then proceed." ++ nl ++
          "The house lets go‚Ä¶ reluctantly.";
       locationHint := "Back door area / shoe mat";
       answer := str "last warmth";
       santismoLine := "Outside‚Ä¶ I become more powerful. Code word." |};
    {| id := 16;
       zone := "yard_path";
       title := "Backyard ‚Äî The Quiet";
       riddle :=
          "Grass remembers every step," ++ nl ++
          "Secrets buried, promises kept." ++ nl ++
          "Ahead stands wood, quiet and small‚Äî" ++ nl ++
          "The final place that knows it all.";
       locationHint := "Backyard (path toward shed / near planter)";
       answer := str "frozen ground";
       santismoLine := "Your breath is visible now. Good. Code word." |};
    {| id := 17;
       zone := "shed_final";
       title := "Shed Door ‚Äî Final Warning";
       riddle :=
          "Hinges groan when truths are near," ++ nl ++
          "This door separates love from fear." ++ nl ++
          "Before you enter, say goodbye‚Äî" ++ nl ++
          "Some endings change you. Some don‚Äôt lie.";
       locationHint := "Shed (at/near the door)";
       answer := str "final knock";
       santismoLine := "I‚Äôm knocking from the inside. Just kidding. Mostly. Code word." |};
    {| id := 18;
       zone := "shed_final";
       title := "THE TREASURE";
       riddle :=
          "You made it to the end, brave soul." ++ nl ++
          "Open the final gift and claim your blessing." ++ nl ++
          "This house is yours now." ++ nl ++
          "Sleep well‚Ä¶ I‚Äôll be watching.";
       locationHint := "Inside the shed (centerpiece)";
       answer := str "homebound";
       santismoLine := "Merry Christmas‚Ä¶ and congratulations. I‚Äôll be watching. Always." |}
  ]%string.

(** ** The component [SantismoHorrorHunt] *)

(** The record kept in local storage. *)
Record Saved := {
  stepIndex : Z;
  unlockedAudio : bool
}.

(** The [useState] cells of the component. *)
Record State := {
  saved : Saved;
  answerInput : jsstring;
  shake : bool;
  showSettings : bool;
  showHint : bool;
  mapOpen : bool;
  mapZone : option string;
  mapVisited : list string
}.

(** The callbacks the handlers hand to [setTimeout]. *)
Inductive Callback :=
| AdvanceStep (nextIndex : Z)   (* setSaved((s) => ({ ...s, stepIndex: nextIndex })) *)
| StopShake.                    (* setShake(false) *)

(** What a handler does besides setting state. The voice option of [speak]
    is left out. *)
Inductive Effect :=
| Speak (text : option string) (pitch rate : Q)
| SetTimeout (callback : Callback) (delay : Z).

(** The initial render: default progress, nothing typed, overlay closed. *)
Definition initialState (sv : Saved) : State :=
  {| saved := sv; answerInput := []; shake := false; showSettings := false;
     showHint := false; mapOpen := false; mapZone := None; mapVisited := [] |}.

Definition defaultSaved : Saved := {| stepIndex := 0; unlockedAudio := false |}.

Definition setSaved (st : State) (sv : Saved) : State :=
  {| saved := sv; answerInput := answerInput st; shake := shake st;
     showSettings := showSettings st; showHint := showHint st;
     mapOpen := mapOpen st; mapZone := mapZone st; mapVisited := mapVisited st |}.

Definition setAnswerInput (st : State) (text : jsstring) : State :=
  {| saved := saved st; answerInput := text; shake := shake st;
     showSettings := showSettings st; showHint := showHint st;
     mapOpen := mapOpen st; mapZone := mapZone st; mapVisited := mapVisited st |}.

Definition setShake (st : State) (b : bool) : State :=
  {| saved := saved st; answerInput := answerInput st; shake := b;
     showSettings := showSettings st; showHint := showHint st;
     mapOpen := mapOpen st; mapZone := mapZone st; mapVisited := mapVisited st |}.

Definition setShowHint (st : State) (b : bool) : State :=
  {| saved := saved st; answerInput := answerInput st; shake := shake st;
     showSettings := showSettings st; showHint := b;
     mapOpen := mapOpen st; mapZone := mapZone st; mapVisited := mapVisited st |}.

Definition setMapOpen (st : State) (b : bool) : State :=
  {| saved := saved st; answerInput := answerInput st; shake := shake st;
     showSettings := showSettings st; showHint := showHint st;
     mapOpen := b; mapZone := mapZone st; mapVisited := mapVisited st |}.

Definition setMapZone (st : State) (z : option string) : State :=
  {| saved := saved st; answerInput := answerInput st; shake := shake st;
     showSettings := showSettings st; showHint := showHint st;
     mapOpen := mapOpen st; mapZone := z; mapVisited := mapVisited st |}.

Definition setMapVisited (st : State) (zs : list string) : State :=
  {| saved := saved st; answerInput := answerInput st; shake := shake st;
     showSettings := showSettings st; showHint := showHint st;
     mapOpen := mapOpen st; mapZone := mapZone st; mapVisited := zs |}.

(** [{ ...s, stepIndex: i }] *)
Definition withStepIndex (sv : Saved) (i : Z) : Saved :=
  {| stepIndex := i; unlockedAudio := unlockedAudio sv |}.

(** Equality of two strings, [===]. *)
Definition jsstring_eqb (a b : jsstring) : bool :=
  if list_eq_dec N.eq_dec a b then true else false.

(** [Boolean(z)] for a zone id: the empty string is falsy. *)
Definition truthy (z : string) : bool := negb (z =? "").

Section Component.

(** [const steps = useMemo(() => DEFAULT_STEPS, [])]: the hunt definition the
    component runs on. *)
Variable steps : list Step.

(** [const step = steps[Math.min(saved.stepIndex, steps.length - 1)]] *)
Definition currentStep (sv : Saved) : option Step :=
  index steps (Z.min (stepIndex sv) (len steps - 1)).

(** [const isLast = saved.stepIndex >= steps.length - 1] *)
Definition isLast (sv : Saved) : bool := (len steps - 1 <=? stepIndex sv)%Z.

(** [const shedUnlocked = saved.stepIndex >= 15] *)
Definition shedUnlocked (sv : Saved) : bool := (15 <=? stepIndex sv)%Z.

(** The candidate lines of [whisper]. *)
Definition variants (step : Step) : list string :=
  [ santismoLine step;
    "I can hear the wrapping paper breathe.";
    "Type the code word. The house is listening.";
    "If you cheat, I‚Äôll replace your gift with socks." ].

(** [whisper()]: silent until the audio is unlocked. *)
Definition whisper (step : Step) (sv : Saved) (r : Q) : list Effect :=
  if negb (unlockedAudio sv) then []
  else [Speak (pick (variants step) r) (62 # 100) (92 # 100)].

(** [onUnlockAudio()] *)
Definition onUnlockAudio (st : State) : State * list Effect :=
  (setSaved st {| stepIndex := stepIndex (saved st); unlockedAudio := true |},
   [Speak (Some "Ho ho ho... welcome, brave soul. Let the hunt begin.")
      (7 # 10) (9 # 10)]).

(** The zones handed to the overlay as visited:
    [steps.slice(0, Math.min(nextIndex, steps.length)).map((s) => s.zone).filter(Boolean)] *)
Definition visitedZones (nextIndex : Z) : list string :=
  filter truthy (List.map zone (slice0 steps (Z.min nextIndex (len steps)))).

(** [showMapForNextStep(nextIndex)]. Reading [next.zone] throws when [next]
    is [undefined]: the handler then has no result. *)
Definition showMapForNextStep (st : State) (nextIndex : Z) (r : Q)
    : option (State * list Effect) :=
  match index steps (Z.min nextIndex (len steps - 1)) with
  | None => None
  | Some next =>
      let current := index steps (Z.min (nextIndex - 1) (len steps - 1)) in
      let st1 := setMapVisited st (visitedZones nextIndex) in
      let st2 := setMapZone st1 (Some (zone next)) in
      let st3 := setMapOpen st2 true in
      Some (st3,
            if unlockedAudio (saved st) then
              [Speak (mapRevealLine (id next) (option_map zone current)
                        (Some (zone next)) r)
                 (62 # 100) (92 # 100)]
            else [])
  end.

(** [onSubmit(e)]. The component renders, and so has handlers, only when
    [step] is defined. [e.preventDefault()] concerns the browser's form
    event alone and is left out. *)
Definition onSubmit (st : State) (r : Q) : option (State * list Effect) :=
  match currentStep (saved st) with
  | None => None
  | Some step =>
      if isLast (saved st) then Some (st, whisper step (saved st) r)
      else
        let expected := normalize (JString (answer step)) in
        let got := normalize (JString (answerInput st)) in
        if jsstring_eqb got expected then
          let nextIndex := Z.min (stepIndex (saved st) + 1) (len steps - 1) in
          match showMapForNextStep (setAnswerInput st []) nextIndex r with
          | None => None
          | Some (st', effects) =>
              Some (st', (effects ++ [SetTimeout (AdvanceStep nextIndex) 3800])%list)
          end
        else
          Some (setShake st true,
                SetTimeout StopShake 450 ::
                (if unlockedAudio (saved st) then
                   [Speak (Some "Wrong. Try again...") (55 # 100) (92 # 100)]
                 else []))
  end.

(** [reset()]. [confirm] is the answer of [window.confirm], [None] where
    there is no [window]. *)
Definition reset (st : State) (confirm : option bool) : State :=
  match confirm with
  | Some false => st
  | _ =>
      let st1 :=
        setSaved st {| stepIndex := 0; unlockedAudio := unlockedAudio (saved st) |} in
      setMapOpen (setShowHint (setAnswerInput st1 []) false) false
  end.

(** [jumpTo(idx)] *)
Definition jumpTo (st : State) (idx : Z) : State :=
  let st1 :=
    setSaved st
      (withStepIndex (saved st) (Z.max 0 (Z.min idx (len steps - 1)))) in
  setMapOpen (setShowHint (setAnswerInput st1 []) false) false.

(** A timer callback run on the state current when it fires. *)
Definition runCallback (st : State) (c : Callback) : State :=
  match c with
  | AdvanceStep nextIndex => setSaved st (withStepIndex (saved st) nextIndex)
  | StopShake => setShake st false
  end.

End Component.

(** ** The component in time *)

(** A pending [setTimeout]: the instant it is due and what it runs. *)
Record Timer := { due : Z; callback : Callback }.

(** The component between two events: its state, the clock in
    milliseconds, the pending timers in firing order, and what has been
    handed to [speak] so far (latest first). *)
Record World := {
  ui : State;
  now : Z;
  timers : list Timer;
  spoken : list (option string)
}.

(** What the user, the operator and the clock can do. The overlay calls
    [CloseMap] (its [onClose]) from its button and from its own
    auto-dismiss timer. *)
Inductive Event :=
| Typed (text : jsstring)
| Submit (r : Q)
| Whisper (r : Q)
| UnlockAudio
| ResetHunt (confirm : option bool)
| JumpTo (idx : Z)
| CloseMap
| Elapse (ms : Z).

(** Timers fire by due time, and in the order they were set when due
    together. *)
Fixpoint insertTimer (t : Timer) (ts : list Timer) : list Timer :=
  match ts with
  | [] => [t]
  | u :: rest =>
      if (due t <? due u)%Z then t :: ts else u :: insertTimer t rest
  end.

(** Carries out the effects of a handler that ran at instant [t]. *)
Fixpoint perform (t : Z) (effects : list Effect) (ts : list Timer)
    (sp : list (option string)) : list Timer * list (option string) :=
  match effects with
  | [] => (ts, sp)
  | Speak text _ _ :: rest => perform t rest ts (text :: sp)
  | SetTimeout c delay :: rest =>
      perform t rest (insertTimer {| due := t + delay; callback := c |} ts) sp
  end.

(** Runs the timers due at instant [t]. *)
Fixpoint fire (t : Z) (ts : list Timer) (st : State) : State * list Timer :=
  match ts with
  | [] => (st, [])
  | u :: rest =>
      if (due u <=? t)%Z then fire t rest (runCallback st (callback u))
      else (st, ts)
  end.

Section Timeline.

Variable steps : list Step.

Definition after (w : World) (res : State * list Effect) : World :=
  let '(ts, sp) := perform (now w) (snd res) (timers w) (spoken w) in
  {| ui := fst res; now := now w; timers := ts; spoken := sp |}.

(** One event. There is no result when the component cannot render
    ([step] is [undefined]) or the handler throws. *)
Definition handle (w : World) (e : Event) : option World :=
  match currentStep steps (saved (ui w)) with
  | None => None
  | Some step =>
      match e with
      | Typed text => Some (after w (setAnswerInput (ui w) text, []))
      | Submit r => option_map (after w) (onSubmit steps (ui w) r)
      | Whisper r => Some (after w (ui w, whisper step (saved (ui w)) r))
      | UnlockAudio => Some (after w (onUnlockAudio (ui w)))
      | ResetHunt confirm => Some (after w (reset (ui w) confirm, []))
      | JumpTo idx => Some (after w (jumpTo steps (ui w) idx, []))
      | CloseMap => Some (after w (setMapOpen (ui w) false, []))
      | Elapse ms =>
          let t := (now w + ms)%Z in
          let '(st, ts) := fire t (timers w) (ui w) in
          Some {| ui := st; now := t; timers := ts; spoken := spoken w |}
      end
  end.

(** A sequence of events. *)
Fixpoint run (w : World) (es : list Event) : option World :=
  match es with
  | [] => Some w
  | e :: rest =>
      match handle w e with
      | None => None
      | Some w' => run w' rest
      end
  end.

End Timeline.

(** The component freshly mounted on stored progress [sv]. *)
Definition mount (sv : Saved) : World :=
  {| ui := initialState sv; now := 0; timers := []; spoken := [] |}.

Definition progress (w : World) : Z := stepIndex (saved (ui w)).

(** ** Voice selection *)

Module Speech.

(** A [SpeechSynthesisVoice], by the two fields [pickVoice] reads. Text is
    held as UTF-8; an ASCII pattern matches the same places in it as in
    the UTF-16 string of the browser. *)
Record Voice := { name : string; lang : string }.

(** The upper-case form of an ASCII letter: how a regular expression with
    the [i] flag compares code units (a code unit outside ASCII is never
    equal to an ASCII one under it). *)
Definition canonicalize (c : ascii) : ascii :=
  let n := nat_of_ascii c in
  if ((97 <=? n) && (n <=? 122))%nat then ascii_of_nat (n - 32) else c.

(** The pattern [p], a literal, matches at the start of [s]. *)
Fixpoint matchesHere (p s : string) : bool :=
  match p, s with
  | EmptyString, _ => true
  | String _ _, EmptyString => false
  | String a p', String b s' =>
      Ascii.eqb (canonicalize a) (canonicalize b) && matchesHere p' s'
  end.

(** [/p/i.test(s)] for a literal [p]: a match somewhere in [s]. *)
Fixpoint test (p s : string) : bool :=
  matchesHere p s
  || match s with
     | EmptyString => false
     | String _ s' => test p s'
     end.

(** [const preferred], each regular expression by its literal. *)
Definition preferred : list string :=
  ["santa"; "daniel"; "alex"; "fred"; "en-us"; "english"].

(** [rx.test(`${vv.name} ${vv.lang}`)] *)
Definition voiceMatches (rx : string) (vv : Voice) : bool :=
  test rx (name vv ++ " " ++ lang vv).

(** The loop of [pickVoice] over the patterns [rxs]. *)
Fixpoint firstPreferred (rxs : list string) (voices : list Voice) : option Voice :=
  match rxs with
  | [] => None
  | rx :: rest =>
      match find (voiceMatches rx) voices with
      | Some v => Some v
      | None => firstPreferred rest voices
      end
  end.

(** [pickVoice(voices)]; [None] is [null]. *)
Definition pickVoice (voices : list Voice) : option Voice :=
  match firstPreferred preferred voices with
  | Some v => Some v
  | None => hd_error voices
  end.

End Speech.

(** ** The typewriter effect *)

Module Typewriter.

(** One run of the effect of [useTypewriter]: the counter [idxRef.current],
    the text shown, whether a call of [tick] is pending, and the flag
    [cancelled] of the run. *)
Record Run := {
  idx : Z;
  shown : jsstring;
  pending : bool;
  cancelled : bool
}.

(** The body of the effect: the counter and the text are cleared and the
    first tick is set. *)
Definition start : Run :=
  {| idx := 0; shown := []; pending := true; cancelled := false |}.

(** The delay before the tick number [k] (from 0):
    [Math.max(10, speed)] for the first, [speed] for the others. *)
Definition delay (speed : Z) (k : nat) : Z :=
  match k with
  | O => Z.max 10 speed
  | S _ => speed
  end.

(** [tick()]: a cancelled run does nothing; otherwise one more code unit
    is shown, and a further tick is set while text is left. *)
Definition tick (fullText : jsstring) (t : Run) : Run :=
  if cancelled t then
    {| idx := idx t; shown := shown t; pending := false; cancelled := true |}
  else
    let i := (idx t + 1)%Z in
    {| idx := i; shown := slice0 fullText i;
       pending := (i <? len fullText)%Z; cancelled := false |}.

(** The clean-up of the effect. *)
Definition cleanup (t : Run) : Run :=
  {| idx := idx t; shown := shown t; pending := pending t; cancelled := true |}.

(** The pending ticks run, at most [n] of them. *)
Fixpoint ticks (fullText : jsstring) (n : nat) (t : Run) : Run :=
  match n with
  | O => t
  | S n' => if pending t then ticks fullText n' (tick fullText t) else t
  end.

End Typewriter.

(** ** The map overlay *)

Module Overlay.

(** What [HauntedMapOverlay] draws for one zone: the class and filter of the
    group, the fill and stroke of the rectangle, and whether the lock
    cross is drawn over it. *)
Record ZoneView := {
  zoneId : string;
  cls : string;
  glow : bool;
  fill : string;
  stroke : string;
  lockCross : bool
}.

(** [id === currentZone]; [None] is the [null] of the initial [mapZone]. *)
Definition isZone (id : string) (currentZone : option string) : bool :=
  match currentZone with
  | Some z => id =? z
  | None => false
  end.

(** [visited.has(id)] for [visited = new Set(visitedZones || [])] *)
Definition has (visitedZones : list string) (id : string) : bool :=
  existsb (String.eqb id) visitedZones.

(** [zoneFill(id)] *)
Definition zoneFill (currentZone : option string) (visitedZones : list string)
    (id : string) : string :=
  if isZone id currentZone then "rgba(220,38,38,0.28)"
  else if has visitedZones id then "rgba(244,63,94,0.12)"
  else "rgba(255,255,255,0.06)".

(** [zoneStroke(id)] *)
Definition zoneStroke (currentZone : option string) (visitedZones : list string)
    (id : string) : string :=
  if isZone id currentZone then "rgba(220,38,38,0.65)"
  else if has visitedZones id then "rgba(244,63,94,0.25)"
  else "rgba(255,255,255,0.10)".

(** The body of the map over [Object.entries(ZONES)], for one entry. *)
Definition zoneView (currentZone : option string) (visitedZones : list string)
    (shedUnlocked : bool) (id : string) : ZoneView :=
  let isCurrent := isZone id currentZone in
  let isShed := id =? "shed_final" in
  let lockedShed := isShed && negb shedUnlocked in
  {| zoneId := id;
     cls := if isCurrent then "zone zone-current"
            else if has visitedZones id then "zone zone-visited"
            else "zone zone-future";
     glow := isCurrent;
     fill := if lockedShed then "rgba(59,130,246,0.08)"
             else zoneFill currentZone visitedZones id;
     stroke := if lockedShed then "rgba(59,130,246,0.22)"
               else zoneStroke currentZone visitedZones id;
     lockCross := lockedShed |}.

(** The zones [HauntedMapOverlay] draws and whether it draws the path to
    the shed; [None] is the [null] of a closed overlay. *)
Definition render (open : bool) (currentZone : option string)
    (visitedZones : list string) (shedUnlocked : bool)
    : option (list ZoneView * bool) :=
  if negb open then None
  else Some (List.map (fun z => zoneView currentZone visitedZones shedUnlocked (fst z))
               ZONES,
             shedUnlocked).

(** The overlay as [SantismoHorrorHunt] mounts it:
    [shedUnlocked={shedUnlocked || mapZone === "shed_final"}]. *)
Definition mounted (st : State) : option (list ZoneView * bool) :=
  render (mapOpen st) (mapZone st) (mapVisited st)
    (shedUnlocked (saved st) || isZone "shed_final" (mapZone st)).

End Overlay.

(** ** Stored state *)

Module Storage.

(** The outcome of [localStorage.getItem(key)]: an exception (no storage),
    [null] (no entry) or the entry. *)
Inductive Read :=
| ReadThrows
| ReadNull
| ReadItem (raw : string).

(** The slot of local storage under the key: [Unavailable] where every
    access throws, otherwise the entry it holds, if any. *)
Inductive Slot :=
| Unavailable
| Holding (entry : option string).

Definition getItem (s : Slot) : Read :=
  match s with
  | Unavailable => ReadThrows
  | Holding None => ReadNull
  | Holding (Some raw) => ReadItem raw
  end.

Section Hook.

Variable A : Type.

(** [JSON.parse], [None] where it throws, and [JSON.stringify]. *)
Variable parse : string -> option A.
Variable stringify : A -> string.

(** The initializer of the state in [useLocalStorageState]: the initial
    value on any exception and on a falsy entry. *)
Definition initialize (rd : Read) (initialValue : A) : A :=
  match rd with
  | ReadThrows => initialValue
  | ReadNull => initialValue
  | ReadItem raw =>
      if raw =? "" then initialValue
      else match parse raw with
           | Some v => v
           | None => initialValue
           end
  end.

(** The effect of [useLocalStorageState]:
    [localStorage.setItem(key, JSON.stringify(state))] with its exception
    swallowed. [full] tells that the write is refused (quota). *)
Definition persist (s : Slot) (full : bool) (state : A) : Slot :=
  match s with
  | Unavailable => Unavailable
  | Holding entry => if full then Holding entry else Holding (Some (stringify state))
  end.

End Hook.

End Storage.

(** * The sentences of the specification, and scenarios *)

(** ** Sentences *)

(** The groups of a location of the house: upper floor, lower floor,
    outdoor. *)
Definition knownGroups : list string := ["up"; "down"; "out"].

(** The classification as the specification words it: a defined id falls in
    a known group, every other id is "unknown". *)
Definition unrecognized_ids_are_unknown : Prop :=
  (forall z, definedZone z -> In (zoneGroup (Some z)) knownGroups)
  /\ (forall zoneId,
        (forall z, zoneId = Some z -> ~ definedZone z) ->
        zoneGroup zoneId = "unknown").

(** The selection as the specification words it: where the direction has
    lines of its own, only those can be drawn. *)
Definition directional_lines_replace_pool : Prop :=
  forall nextStepId fromZone toZone r line,
    specialBeat nextStepId = None ->
    directional (zoneGroup fromZone) (zoneGroup toZone) <> [] ->
    (0 <= r)%Q -> (r < 1)%Q ->
    mapRevealLine nextStepId fromZone toZone r = Some line ->
    In line (directional (zoneGroup fromZone) (zoneGroup toZone)).

(** [clamp(k, lo, hi)] *)
Definition clamp (k lo hi : Z) : Z :=
  if (k <? lo)%Z then lo else if (hi <? k)%Z then hi else k.

(** [a] stands before [b] in [l]. *)
Definition precedes (a b : string) (l : list string) : Prop :=
  exists l1 l2 l3, l = (l1 ++ a :: l2 ++ b :: l3)%list.

(** The reveal as the specification words it: on a correct answer at a
    non-terminal step [i], the visited list holds the location of step [i]
    and, after it, the location of step [i + 1]. *)
Definition reveal_visits_destination : Prop :=
  forall steps st r i A B st' effects,
    (0 <= i)%Z -> (i + 1 < len steps)%Z ->
    stepIndex (saved st) = i ->
    index steps i = Some A ->
    index steps (i + 1) = Some B ->
    normalize (JString (answerInput st)) = normalize (JString (answer A)) ->
    onSubmit steps st r = Some (st', effects) ->
    precedes (zone A) (zone B) (mapVisited st').

(** ** Scenarios on the hunt of the house *)

(** The step of the hunt at position [k] (counted from 0). *)
Definition stepAt (k : nat) : Step :=
  nth k DEFAULT_STEPS
    {| id := 0; zone := ""; title := ""; riddle := ""; locationHint := "";
       answer := []; santismoLine := "" |}.

(** The first riddle on screen, with its code word typed in. *)
Definition firstAnswerTyped : State :=
  setAnswerInput (initialState defaultSaved) (str "crossroads").

(** The hunt cut down to its first five steps. *)
Definition fiveSteps : list Step := firstn 5 DEFAULT_STEPS.

(** The first code word is typed and submitted, and one second into the
    reveal the operator acts. *)
Definition revealInterrupted (e : Event) : list Event :=
  [Typed (str "crossroads"); Submit 0; Elapse 1000; e].

(** A hunt of three steps with the code words alpha, beta and gamma. *)
Definition threeSteps : list Step :=
  [ {| id := 1; zone := "study"; title := ""; riddle := ""; locationHint := "";
       answer := str "alpha"; santismoLine := "" |};
    {| id := 2; zone := "kitchen"; title := ""; riddle := ""; locationHint := "";
       answer := str "beta"; santismoLine := "" |};
    {| id := 3; zone := "laundry"; title := ""; riddle := ""; locationHint := "";
       answer := str "gamma"; santismoLine := "" |} ].

(** ** Invariants *)

(** Every pending step advance leads to an index that is not negative. *)
Definition advancesFromZero (ts : list Timer) : Prop :=
  Forall (fun t => match callback t with
                   | AdvanceStep n => (0 <= n)%Z
                   | StopShake => True
                   end) ts.

(** The shape of a normalizer output: code units of the kept class only,
    and white space only as single spaces. [afterSpace] tells that a space
    stands just before [s]. *)
Fixpoint spaced (afterSpace : bool) (s : jsstring) : Prop :=
  match s with
  | [] => True
  | c :: rest =>
      isKept c = true
      /\ (isWhiteSpace c = true -> c = 0x20%N /\ afterSpace = false)
      /\ spaced (isWhiteSpace c) rest
  end.

(** The string is empty or starts with a code unit that is no white space. *)
Definition startsPlain (s : jsstring) : Prop :=
  match s with
  | [] => True
  | c :: _ => isWhiteSpace c = false
  end.

(** ** Shapes of text *)

(** A lower-case letter, a digit, the hyphen or the space. *)
Definition plainUnit (c : N) : bool :=
  ((0x61 <=? c) && (c <=? 0x7A))%N
  || ((0x30 <=? c) && (c <=? 0x39))%N
  || (c =? 0x2D)%N
  || (c =? 0x20)%N.

(** An ASCII capital letter. *)
Definition isCapital (c : N) : bool := ((0x41 <=? c) && (c <=? 0x5A))%N.

(** A code unit the normalizer does not remove: one of the kept class or
    an ASCII capital letter. *)
Definition survives (c : N) : bool := isKept c || isCapital c.

(** Two code units that are equal or the two cases of one ASCII letter. *)
Definition sameLetter (a b : N) : Prop :=
  a = b
  \/ (isCapital a = true /\ b = (a + 0x20)%N)
  \/ (isCapital b = true /\ a = (b + 0x20)%N).

(** The lower-case form of a code unit that survives the normalizer. *)
Definition low (c : N) : N := if isCapital c then (c + 0x20)%N else c.

(** ** Voices *)

(** No voice of [voices] matches the pattern [rx]. *)
Definition unmatched (voices : list Speech.Voice) (rx : string) : Prop :=
  Forall (fun u => Speech.voiceMatches rx u = false) voices.

(** Two voices of a phone: the first matches [/en-us/i] only, the second
    matches [/daniel/i]. *)
Definition samantha : Speech.Voice :=
  {| Speech.name := "Samantha"; Speech.lang := "en-US" |}.

Definition daniel : Speech.Voice :=
  {| Speech.name := "Daniel"; Speech.lang := "en-GB" |}.

Definition phoneVoices : list Speech.Voice := [samantha; daniel].

(** ** Lines *)

(** The three direction-aware lines of [mapRevealLine]. *)
Definition downstairsLine : string := "Downstairs now‚Ä¶ good choice.".

Definition outsideLine : string := "Outside‚Ä¶ where my laugh travels farther.".

Definition upstairsLine : string := "Back upstairs? Brave.".

(** The step is outdoors and its reveal is no special beat. *)
Definition plainOutdoorStep (s : Step) : bool :=
  (zoneGroup (Some (zone s)) =? "out")
  && match specialBeat (id s) with Some _ => false | None => true end.

(** ** Events and effects *)

(** A call of [speak]. *)
Definition isSpeak (e : Effect) : Prop := exists text pitch rate, e = Speak text pitch rate.

(** An event of normal play: anything but the operator's reset and jump,
    with time running forward. *)
Definition playEvent (e : Event) : Prop :=
  match e with
  | ResetHunt _ | JumpTo _ => False
  | Elapse ms => (0 <= ms)%Z
  | _ => True
  end.

(** Every pending step advance leads to an index of at most [hi]. *)
Definition advancesUpTo (hi : Z) (ts : list Timer) : Prop :=
  Forall (fun t => match callback t with
                   | AdvanceStep n => (n <= hi)%Z
                   | StopShake => True
                   end) ts.

(** The timers of normal play at instant [t]: they stand in firing order,
    each pending step advance was set at most 3.8 seconds before [t]
    ends, and their targets rise from [lo] to at most [hi]. *)
Fixpoint queued (t lo hi : Z) (ts : list Timer) : Prop :=
  match ts with
  | [] => True
  | u :: rest =>
      Forall (fun v => (due u <= due v)%Z) rest
      /\ match callback u with
         | AdvanceStep n =>
             (due u <= t + 3800)%Z /\ (lo <= n <= hi)%Z /\ queued t n hi rest
         | StopShake => queued t lo hi rest
         end
  end.

(** A world of normal play. *)
Definition orderly (w : World) : Prop :=
  queued (now w) (progress w) (progress w + 1) (timers w).

(** ** The typewriter after [k] ticks *)

(** The run of the typewriter effect that has ticked [k] times. *)
Definition ticked (fullText : jsstring) (k : nat) : Typewriter.Run :=
  {| Typewriter.idx := Z.of_nat k;
     Typewriter.shown := firstn k fullText;
     Typewriter.pending := (k =? 0)%nat || (k <? List.length fullText)%nat;
     Typewriter.cancelled := false |}.

(** ** A codec for the audio flag *)

(** [JSON.stringify] and [JSON.parse] on booleans. *)
Definition stringifyBool (b : bool) : string := if b then "true" else "false".

Definition parseBool (raw : string) : option bool :=
  if raw =? "true" then Some true
  else if raw =? "false" then Some false
  else None.

(** * Properties of the specification *)

(** ** Answer normalizer *)

(** C10. [normalize] is total, and on [undefined], [null] and the empty
    string it returns the empty string: [(s || "").toString()] turns each
    of them into the empty string before anything else runs. *)
Theorem normalize_absent_input :
  normalize JUndefined = []
  /\ normalize JNull = []
  /\ normalize (JString (str "")) = []
  /\ forall v, exists out, normalize v = out.
Proof.
  repeat split; try reflexivity.
  intro v. exists (normalize v). reflexivity.
Qed.

(** C3, as the specification states it, fails: the hyphen belongs to the
    character class the normalizer keeps, so "Cross-Roads!" and "crossroads"
    have different normal forms. *)
Lemma normalize_crossroads_example_differs :
  normalize (JString (str "Cross-Roads!")) <> normalize (JString (str "crossroads")).
Proof.
  intro H. vm_compute in H. discriminate H.
Qed.

(** C3, amended. The example of the specification with the hyphen kept:
    "Cross-Roads!" normalizes to "cross-roads", which is the normal form
    of "cross-roads", and "CrossRoads!" has the normal form of
    "crossroads". Nothing is said beyond these three instances. *)
Theorem normalize_crossroads_example :
  normalize (JString (str "Cross-Roads!")) = str "cross-roads"
  /\ normalize (JString (str "Cross-Roads!")) = normalize (JString (str "cross-roads"))
  /\ normalize (JString (str "CrossRoads!")) = normalize (JString (str "crossroads")).
Proof.
  repeat split; vm_compute; reflexivity.
Qed.

(** C4 fails on the code. [trim] runs before the disallowed characters are
    removed, so white space that follows a leading punctuation mark
    survives as a leading space; a second pass trims it. On the input
    "! a" the first pass gives " a" and the second "a". *)
Theorem normalize_not_idempotent_after_leading_punctuation :
  normalize (JString (str "! a")) = str " a"
  /\ normalize (JString (normalize (JString (str "! a")))) = str "a"
  /\ normalize (JString (normalize (JString (str "! a"))))
     <> normalize (JString (str "! a")).
Proof.
  repeat split; try (vm_compute; reflexivity).
  intro H. vm_compute in H. discriminate H.
Qed.

(** ** The normalizer applied again *)

Lemma collapseFrom_spaced (b : bool) (s : jsstring) :
  Forall (fun c => isKept c = true) s -> spaced b (collapseFrom b s).
Proof.
  intro H. revert b. induction H as [|c rest Hc Hrest IH]; intro b; simpl.
  - exact I.
  - destruct (isWhiteSpace c) eqn:W.
    + destruct b; [apply IH|]. simpl. repeat split. apply IH.
    + simpl. rewrite W. repeat split; try assumption; try discriminate. apply IH.
Qed.

Lemma stripDisallowed_kept (s : jsstring) :
  Forall (fun c => isKept c = true) (stripDisallowed s).
Proof.
  apply Forall_forall. intros c Hin. apply filter_In in Hin. apply Hin.
Qed.

Lemma normalize_spaced (v : value) : spaced false (normalize v).
Proof.
  unfold normalize, collapseWhitespace.
  apply collapseFrom_spaced, stripDisallowed_kept.
Qed.

Lemma isKept_lowerUnit (c : N) : isKept c = true -> lowerUnit c = [c].
Proof.
  unfold isKept, lowerUnit, isWhiteSpace. simpl existsb. intro H.
  destruct ((0x41 <=? c) && (c <=? 0x5A))%N eqn:U.
  - apply andb_prop in U. destruct U as [U1 U2].
    apply N.leb_le in U1. apply N.leb_le in U2.
    repeat match type of H with
           | (_ || _) = true => apply orb_prop in H; destruct H as [H|H]
           | (_ && _) = true => apply andb_prop in H; destruct H as [H ?H]
           end;
      repeat match goal with
             | E : (_ <=? _)%N = true |- _ => apply N.leb_le in E
             | E : (_ =? _)%N = true |- _ => apply N.eqb_eq in E
             end; try lia; try discriminate.
  - destruct (N.eqb_spec c 0x212A) as [->|_]; [vm_compute in H; discriminate H|].
    destruct (N.eqb_spec c 0x0130) as [->|_]; [vm_compute in H; discriminate H|].
    reflexivity.
Qed.

Lemma spaced_kept (b : bool) (s : jsstring) :
  spaced b s -> Forall (fun c => isKept c = true) s.
Proof.
  revert b. induction s as [|c rest IH]; intros b H; constructor.
  - apply H.
  - apply (IH (isWhiteSpace c)), H.
Qed.

Lemma toLowerCase_kept (s : jsstring) :
  Forall (fun c => isKept c = true) s -> toLowerCase s = s.
Proof.
  induction 1 as [|c rest Hc Hrest IH]; simpl; [reflexivity|].
  rewrite (isKept_lowerUnit c Hc), IH. reflexivity.
Qed.

Lemma stripDisallowed_id (s : jsstring) :
  Forall (fun c => isKept c = true) s -> stripDisallowed s = s.
Proof.
  unfold stripDisallowed.
  induction 1 as [|c rest Hc Hrest IH]; simpl; [reflexivity|].
  rewrite Hc, IH. reflexivity.
Qed.

Lemma collapseFrom_id (b : bool) (s : jsstring) :
  spaced b s -> collapseFrom b s = s.
Proof.
  revert b. induction s as [|c rest IH]; intros b H; simpl; [reflexivity|].
  destruct H as [_ [Hw Hrest]].
  destruct (isWhiteSpace c) eqn:W.
  - destruct (Hw eq_refl) as [-> ->]. rewrite (IH true Hrest). reflexivity.
  - rewrite (IH false Hrest). reflexivity.
Qed.

Lemma trimStart_spaced (b b' : bool) (s : jsstring) :
  spaced b s -> spaced b' (trimStart s).
Proof.
  revert b. induction s as [|c rest IH]; intros b H; simpl; [exact I|].
  destruct (isWhiteSpace c) eqn:W.
  - apply (IH (isWhiteSpace c)). destruct H as [_ [_ H]]. exact H.
  - simpl. rewrite W. destruct H as [Hk [_ Hrest]]. rewrite W in Hrest.
    repeat split; try assumption; discriminate.
Qed.

Lemma trimEnd_snoc (s : jsstring) (c : N) :
  trimEnd (s ++ [c])%list = if isWhiteSpace c then trimEnd s else (s ++ [c])%list.
Proof.
  unfold trimEnd. rewrite rev_app_distr. simpl.
  destruct (isWhiteSpace c); [reflexivity|].
  simpl. rewrite rev_involutive. reflexivity.
Qed.

Lemma spaced_app_l (b : bool) (s t : jsstring) :
  spaced b (s ++ t)%list -> spaced b s.
Proof.
  revert b. induction s as [|c rest IH]; intros b H; simpl; [exact I|].
  destruct H as [Hk [Hw Hrest]]. repeat split; try assumption.
  - apply Hw. assumption.
  - apply Hw. assumption.
  - apply IH. exact Hrest.
Qed.

Lemma trimEnd_spaced (b : bool) (s : jsstring) :
  spaced b s -> spaced b (trimEnd s).
Proof.
  induction s as [|c s IH] using rev_ind; intro H; [exact I|].
  rewrite trimEnd_snoc. destruct (isWhiteSpace c); [|exact H].
  apply IH. apply (spaced_app_l b s [c]). exact H.
Qed.

Lemma trim_spaced (s : jsstring) : spaced false s -> spaced false (trim s).
Proof.
  intro H. unfold trim. apply trimEnd_spaced. apply (trimStart_spaced false). exact H.
Qed.

Lemma trimStart_startsPlain (s : jsstring) : startsPlain (trimStart s).
Proof.
  induction s as [|c rest IH]; simpl; [exact I|].
  destruct (isWhiteSpace c) eqn:W; [exact IH|exact W].
Qed.

Lemma startsPlain_trimStart (s : jsstring) : startsPlain s -> trimStart s = s.
Proof.
  destruct s as [|c rest]; simpl; [reflexivity|]. intros ->. reflexivity.
Qed.

Lemma trimEnd_startsPlain (s : jsstring) : startsPlain s -> startsPlain (trimEnd s).
Proof.
  induction s as [|c s IH] using rev_ind; intro H; [exact I|].
  rewrite trimEnd_snoc. destruct (isWhiteSpace c); [|exact H].
  apply IH. destruct s; [exact I|exact H].
Qed.

Lemma trimStart_idempotent (s : jsstring) : trimStart (trimStart s) = trimStart s.
Proof. apply startsPlain_trimStart, trimStart_startsPlain. Qed.

(** [trim] is idempotent. *)
Lemma trim_idempotent (s : jsstring) : trim (trim s) = trim s.
Proof.
  unfold trim.
  rewrite (startsPlain_trimStart (trimEnd (trimStart s)))
    by apply trimEnd_startsPlain, trimStart_startsPlain.
  unfold trimEnd. rewrite rev_involutive, trimStart_idempotent. reflexivity.
Qed.

(** On a string of the shape of a normalizer output, all that [normalize]
    still does is trim. *)
Lemma normalize_of_spaced (s : jsstring) :
  spaced false s -> normalize (JString s) = trim s.
Proof.
  intro H. apply trim_spaced in H.
  unfold normalize, collapseWhitespace. simpl orEmptyToString.
  rewrite (toLowerCase_kept _ (spaced_kept _ _ H)).
  rewrite (stripDisallowed_id _ (spaced_kept _ _ H)).
  apply collapseFrom_id. exact H.
Qed.

(** A second pass of [normalize] trims the result of the first. *)
Lemma normalize_second_pass (v : value) :
  normalize (JString (normalize v)) = trim (normalize v).
Proof. apply normalize_of_spaced, normalize_spaced. Qed.

(** From the second pass on the result no longer changes. *)
Lemma normalize_stable_from_second_pass (v : value) :
  normalize (JString (normalize (JString (normalize v))))
  = normalize (JString (normalize v)).
Proof.
  rewrite (normalize_second_pass v).
  rewrite normalize_of_spaced by apply trim_spaced, normalize_spaced.
  apply trim_idempotent.
Qed.

(** ** Zone classification *)

Lemma garage_not_defined : ~ definedZone "garage".
Proof.
  intro D. unfold definedZone in D. simpl in D.
  repeat (destruct D as [D|D]; [discriminate D|]). exact D.
Qed.

(** C6, as the specification states it, fails: "garage" is no key of
    [ZONES], and it classifies as "down". *)
Lemma unrecognized_zone_is_down : ~ unrecognized_ids_are_unknown.
Proof.
  intros [_ H].
  specialize (H (Some "garage")).
  assert (G : zoneGroup (Some "garage") = "down") by reflexivity.
  rewrite H in G; [discriminate G|].
  intros z E; injection E as <-. exact garage_not_defined.
Qed.

Lemma eqb_neq_false (a b : string) : a <> b -> (a =? b) = false.
Proof. intro H. apply String.eqb_neq. exact H. Qed.

(** C6, amended. [zoneGroup] is total. Every defined id falls in a known
    group. The absent id ([undefined] or the empty string) is "unknown".
    Any other id that is not defined is classified by the same rules as
    the defined ones: "up" when it starts with "up_", otherwise "down". *)
Theorem zoneGroup_classification :
  (forall z, definedZone z -> In (zoneGroup (Some z)) knownGroups)
  /\ zoneGroup None = "unknown"
  /\ zoneGroup (Some "") = "unknown"
  /\ (forall z, z <> "" -> ~ definedZone z ->
        zoneGroup (Some z) = if prefix "up_" z then "up" else "down").
Proof.
  split; [|split; [reflexivity|split; [reflexivity|]]].
  - intros z D. unfold definedZone in D. simpl in D.
    repeat (destruct D as [<-|D]; [vm_compute; tauto|]). destruct D.
  - intros z Hne Hnd. unfold zoneGroup.
    rewrite (eqb_neq_false z "" Hne).
    assert (S1 : (z =? "stairs_transition") = false).
    { apply eqb_neq_false. intros ->. apply Hnd. vm_compute. tauto. }
    assert (S2 : (z =? "yard_path") = false).
    { apply eqb_neq_false. intros ->. apply Hnd. vm_compute. tauto. }
    assert (S3 : (z =? "shed_final") = false).
    { apply eqb_neq_false. intros ->. apply Hnd. vm_compute. tauto. }
    rewrite S1, S2, S3. destruct (prefix "up_" z); reflexivity.
Qed.

(** The amended classification at a defined and at an unrecognized id. *)
Lemma zoneGroup_classification_witness :
  In (zoneGroup (Some "kitchen")) knownGroups
  /\ zoneGroup (Some "garage") = "down".
Proof.
  destruct zoneGroup_classification as [Hdef [_ [_ Hother]]].
  split.
  - apply Hdef. vm_compute. tauto.
  - apply (Hother "garage").
    + discriminate.
    + exact garage_not_defined.
Defined.

(** ** Narration selector *)

Lemma index_in_range {A : Type} (xs : list A) (i : Z) :
  (0 <= i < len xs)%Z -> exists a, index xs i = Some a /\ In a xs.
Proof.
  intros [Hlo Hhi]. unfold index, len in *.
  destruct (Z.ltb_spec i 0) as [Hneg|_]; [lia|].
  destruct (nth_error xs (Z.to_nat i)) as [a|] eqn:E.
  - exists a. split; [reflexivity|]. eapply nth_error_In; exact E.
  - apply nth_error_None in E. lia.
Qed.

Lemma randomIndex_range (r : Q) (n : Z) :
  (0 <= r)%Q -> (r < 1)%Q -> (0 < n)%Z -> (0 <= randomIndex r n < n)%Z.
Proof.
  destruct r as [a b]. unfold Qle, Qlt, randomIndex, Qfloor, Qmult, inject_Z.
  simpl. intros Hlo Hhi Hn.
  rewrite Pos.mul_1_r.
  split.
  - apply Z.div_pos; nia.
  - apply Z.div_lt_upper_bound; nia.
Qed.

Lemma randomIndex_exact (k : Z) (p : positive) :
  randomIndex (k # p) (Zpos p) = k.
Proof.
  unfold randomIndex, Qfloor, Qmult, inject_Z. simpl.
  rewrite Pos.mul_1_r. apply Z.div_mul. discriminate.
Qed.

(** A random draw from a non-empty array yields one of its elements. *)
Lemma pick_in {A : Type} (xs : list A) (r : Q) :
  xs <> [] -> (0 <= r)%Q -> (r < 1)%Q ->
  exists a, pick xs r = Some a /\ In a xs.
Proof.
  intros Hne Hlo Hhi. unfold pick. apply index_in_range.
  apply randomIndex_range; try assumption.
  unfold len. destruct xs; [congruence|simpl; lia].
Qed.

(** Every element of the array is the outcome of some draw. *)
Lemma pick_any {A : Type} (xs : list A) (a : A) :
  In a xs -> exists r, (0 <= r)%Q /\ (r < 1)%Q /\ pick xs r = Some a.
Proof.
  intro Hin. destruct (In_nth_error xs a Hin) as [k Hk].
  assert (Hlt : (k < List.length xs)%nat).
  { apply nth_error_Some. rewrite Hk. discriminate. }
  exists (Z.of_nat k # Pos.of_nat (List.length xs)).
  assert (Hlen : len xs = Zpos (Pos.of_nat (List.length xs))).
  { unfold len. destruct (List.length xs) eqn:E; [lia|]. 
    rewrite <- Pos.of_nat_succ. lia. }
  split; [|split].
  - unfold Qle. simpl. lia.
  - unfold Qlt. simpl. rewrite <- Hlen. unfold len. lia.
  - unfold pick. rewrite Hlen, randomIndex_exact. unfold index.
    destruct (Z.ltb_spec (Z.of_nat k) 0); [lia|].
    rewrite Nat2Z.id. exact Hk.
Qed.

(** C2, as the specification states it, fails. From the stairs down to the
    study the direction has the line "Downstairs now", and the draw
    [r = 1/6] still returns the first line of the generic pool. *)
Lemma generic_line_drawn_despite_direction : ~ directional_lines_replace_pool.
Proof.
  intro H.
  specialize (H 8%Z (Some "stairs_transition") (Some "study") (1 # 6)
                (nth 0 pool "")).
  assert (D : In (nth 0 pool "")
                (directional (zoneGroup (Some "stairs_transition"))
                             (zoneGroup (Some "study")))).
  { apply H.
    - reflexivity.
    - vm_compute. discriminate.
    - unfold Qle. simpl. lia.
    - unfold Qlt. simpl. lia.
    - vm_compute. reflexivity. }
  vm_compute in D. destruct D as [D|D]; [discriminate D|exact D].
Qed.

(** C2, amended. For a step id that is no special beat and a direction
    that has lines of its own, the line is drawn from those lines followed
    by the generic pool: every draw yields one of them, and each of them,
    the five generic lines included, is the outcome of some draw. *)
Theorem mapRevealLine_draws_from_directional_and_pool :
  forall nextStepId fromZone toZone,
    specialBeat nextStepId = None ->
    directional (zoneGroup fromZone) (zoneGroup toZone) <> [] ->
    (forall r, (0 <= r)%Q -> (r < 1)%Q ->
       exists line,
         mapRevealLine nextStepId fromZone toZone r = Some line
         /\ In line (directional (zoneGroup fromZone) (zoneGroup toZone) ++ pool)%list)
    /\ (forall line,
          In line (directional (zoneGroup fromZone) (zoneGroup toZone) ++ pool)%list ->
          exists r, (0 <= r)%Q /\ (r < 1)%Q
                    /\ mapRevealLine nextStepId fromZone toZone r = Some line).
Proof.
  intros nextStepId fromZone toZone Hbeat Hdir.
  assert (Hall : allLines (zoneGroup fromZone) (zoneGroup toZone)
                 = (directional (zoneGroup fromZone) (zoneGroup toZone) ++ pool)%list).
  { unfold allLines.
    destruct (directional (zoneGroup fromZone) (zoneGroup toZone)) as [|d ds];
      [congruence|].
    unfold len. simpl List.length.
    destruct (Z.eqb_spec (Z.of_nat (S (List.length ds))) 0); [lia|reflexivity]. }
  unfold mapRevealLine. rewrite Hbeat. cbv zeta. rewrite Hall.
  split.
  - intros r Hlo Hhi. apply pick_in; try assumption.
    intro E. apply app_eq_nil in E. destruct E as [E _]. exact (Hdir E).
  - intros line Hin. apply pick_any. exact Hin.
Qed.

(** The amended selection on the way from the stairs down to the study:
    the draw [r = 1/6] yields one of the six lines, and the first generic
    line is the outcome of some draw. *)
Lemma mapRevealLine_draws_from_directional_and_pool_witness :
  (exists line,
     mapRevealLine 8 (Some "stairs_transition") (Some "study") (1 # 6) = Some line
     /\ In line ("Downstairs now‚Ä¶ good choice." :: pool))
  /\ (exists r, (0 <= r)%Q /\ (r < 1)%Q
                /\ mapRevealLine 8 (Some "stairs_transition") (Some "study") r
                   = Some (nth 0 pool "")).
Proof.
  assert (Hbeat : specialBeat 8 = None) by reflexivity.
  assert (Hdir : directional (zoneGroup (Some "stairs_transition"))
                             (zoneGroup (Some "study")) <> []).
  { vm_compute. discriminate. }
  destruct (mapRevealLine_draws_from_directional_and_pool
              8%Z (Some "stairs_transition") (Some "study") Hbeat Hdir)
    as [Hdraw Hany].
  split.
  - apply (Hdraw (1 # 6)).
    + unfold Qle. simpl. lia.
    + unfold Qlt. simpl. lia.
  - apply Hany. right. left. reflexivity.
Defined.

(** ** Progression *)

Lemma index_nth_error {A : Type} (xs : list A) (i : Z) :
  (0 <= i)%Z -> index xs i = nth_error xs (Z.to_nat i).
Proof.
  intro H. unfold index. destruct (Z.ltb_spec i 0); [lia|reflexivity].
Qed.

Lemma firstn_snoc {A : Type} (xs : list A) (n : nat) (a : A) :
  nth_error xs n = Some a -> firstn (S n) xs = (firstn n xs ++ [a])%list.
Proof.
  revert n. induction xs as [|b xs IH]; intros [|n] H; simpl in *; try discriminate.
  - injection H as ->. reflexivity.
  - rewrite (IH n H). reflexivity.
Qed.

Lemma In_firstn {A : Type} (xs : list A) (n : nat) (a : A) :
  In a (firstn n xs) <-> exists j, (j < n)%nat /\ nth_error xs j = Some a.
Proof.
  revert n. induction xs as [|b xs IH]; intros n.
  - rewrite firstn_nil. split; [intros []|].
    intros [j [_ H]]. destruct j; discriminate H.
  - destruct n as [|n]; simpl.
    + split; [intros []|]. intros [j [H _]]. lia.
    + rewrite IH. split.
      * intros [->|[j [Hj E]]].
        -- exists 0%nat. split; [lia|reflexivity].
        -- exists (S j). split; [lia|exact E].
      * intros [[|j] [Hj E]]; simpl in E.
        -- left. congruence.
        -- right. exists j. split; [lia|exact E].
Qed.

Lemma jsstring_eqb_eq (a b : jsstring) : jsstring_eqb a b = true <-> a = b.
Proof.
  unfold jsstring_eqb. destruct (list_eq_dec N.eq_dec a b); split; congruence.
Qed.

Lemma truthy_true (z : string) : truthy z = true <-> z <> "".
Proof.
  unfold truthy. destruct (String.eqb_spec z ""); split; simpl; congruence.
Qed.

Section Progression.

Variable steps : list Step.

(** The hunt has at least one step. *)
Hypothesis steps_nonempty : steps <> [].

Lemma len_positive : (0 < len steps)%Z.
Proof. unfold len. destruct steps; [congruence|simpl; lia]. Qed.

Lemma currentStep_defined (sv : Saved) :
  (0 <= stepIndex sv)%Z ->
  exists step,
    currentStep steps sv = Some step
    /\ nth_error steps (Z.to_nat (Z.min (stepIndex sv) (len steps - 1))) = Some step.
Proof.
  intro Hlo. pose proof len_positive as Hlen.
  destruct (index_in_range steps (Z.min (stepIndex sv) (len steps - 1)))
    as [step [E _]]; [lia|].
  exists step. unfold currentStep. split; [exact E|].
  rewrite index_nth_error in E by lia. exact E.
Qed.

(** Below 0 there is no step: the read [steps[-1]] is [undefined]. The
    component never stores such an index, see [run_progress_nonnegative]. *)
Lemma currentStep_negative (sv : Saved) :
  (stepIndex sv < 0)%Z -> currentStep steps sv = None.
Proof.
  intro H. pose proof len_positive as Hlen. unfold currentStep, index.
  destruct (Z.ltb_spec (Z.min (stepIndex sv) (len steps - 1)) 0); [reflexivity|lia].
Qed.

(** C9. For every stored step index from 0 upward, also one past the end
    of the hunt, the current step is defined: it is the step at index
    [min(stepIndex, stepCount - 1)], hence the last step whenever the
    stored index is at or beyond the end. *)
Theorem currentStep_clamped (sv : Saved) :
  (0 <= stepIndex sv)%Z ->
  exists step,
    currentStep steps sv = Some step
    /\ nth_error steps (Z.to_nat (Z.min (stepIndex sv) (len steps - 1))) = Some step
    /\ ((len steps - 1 <= stepIndex sv)%Z ->
        nth_error steps (List.length steps - 1) = Some step).
Proof.
  intro Hlo. pose proof len_positive as Hlen.
  destruct (currentStep_defined sv Hlo) as [step [E N]].
  exists step. split; [exact E|]. split; [exact N|].
  intro Hbeyond. rewrite <- N. f_equal. unfold len in *. lia.
Qed.

(** C8. A reset that is carried out puts the step index at 0 and keeps the
    audio flag; [jumpTo(k)] puts the step index at [clamp(k, 0, stepCount - 1)]
    for every integer [k] and keeps the audio flag. *)
Theorem reset_and_jumpTo_progress (st : State) :
  stepIndex (saved (reset st (Some true))) = 0%Z
  /\ unlockedAudio (saved (reset st (Some true))) = unlockedAudio (saved st)
  /\ stepIndex (saved (reset st None)) = 0%Z
  /\ unlockedAudio (saved (reset st None)) = unlockedAudio (saved st)
  /\ (forall k,
        stepIndex (saved (jumpTo steps st k)) = clamp k 0 (len steps - 1)
        /\ unlockedAudio (saved (jumpTo steps st k)) = unlockedAudio (saved st)).
Proof.
  pose proof len_positive as Hlen. repeat (split; [reflexivity|]).
  intro k. split; [|reflexivity].
  unfold jumpTo, clamp. simpl.
  destruct (Z.ltb_spec k 0); destruct (Z.ltb_spec (len steps - 1) k); lia.
Qed.

(** C7. At the terminal step a submission compares nothing and changes
    nothing: whatever has been typed, the state (step index and shake flag
    included) stays as it is, no timer is set, and the effects are those of
    [whisper], at most one call of [speak]. *)
Theorem terminal_submit_only_whispers (st : State) (text : jsstring) (r : Q) :
  stepIndex (saved st) = (len steps - 1)%Z ->
  exists step,
    currentStep steps (saved st) = Some step
    /\ onSubmit steps (setAnswerInput st text) r
       = Some (setAnswerInput st text, whisper step (saved st) r)
    /\ (forall e, In e (whisper step (saved st) r) ->
          e = Speak (pick (variants step) r) (62 # 100) (92 # 100)).
Proof.
  intro Hlast. pose proof len_positive as Hlen.
  destruct (currentStep_defined (saved st)) as [step [E _]]; [lia|].
  exists step. split; [exact E|]. split.
  - unfold onSubmit. simpl saved. rewrite E.
    unfold isLast. rewrite Hlast, Z.leb_refl. reflexivity.
  - unfold whisper. destruct (unlockedAudio (saved st)); simpl.
    + intros e [<-|[]]. reflexivity.
    + intros e [].
Qed.

End Progression.

(** ** The map reveal *)

(** C1, as the specification states it, fails. After the answer of the
    first step of the hunt the visited list is the location of that step
    alone: the location of the second step is not in it. *)
Lemma reveal_omits_destination : ~ reveal_visits_destination.
Proof.
  intro H.
  pose (st := firstAnswerTyped).
  destruct (onSubmit DEFAULT_STEPS st 0) as [[st' effects]|] eqn:E;
    [|vm_compute in E; discriminate E].
  destruct (H DEFAULT_STEPS st 0%Q 0%Z (stepAt 0) (stepAt 1) st' effects)
    as [l1 [l2 [l3 P]]];
    try reflexivity; try lia; try exact E.
  assert (V : mapVisited st' = ["up_corridor"]).
  { vm_compute in E. injection E as <- _. reflexivity. }
  rewrite V in P. apply (f_equal (@List.length string)) in P.
  rewrite !length_app in P. simpl in P. rewrite !length_app in P. simpl in P. lia.
Qed.

(** C1, amended. On a correct answer at a non-terminal step [i] (location
    A, next location B) the reveal points at B as the current location,
    and its visited list is the locations of the steps 0 to [i] in step
    order, empty ids left out: it ends with A, and B is in it only where
    one of the steps 0 to [i] is at B. *)
Theorem reveal_visits_up_to_solved_step :
  forall steps st r i A B,
    (0 <= i)%Z -> (i + 1 < len steps)%Z ->
    stepIndex (saved st) = i ->
    index steps i = Some A ->
    index steps (i + 1) = Some B ->
    normalize (JString (answerInput st)) = normalize (JString (answer A)) ->
    exists st' effects,
      onSubmit steps st r = Some (st', effects)
      /\ mapZone st' = Some (zone B)
      /\ mapVisited st'
         = filter truthy (List.map zone (firstn (Z.to_nat (i + 1)) steps))
      /\ (zone A <> "" -> exists l, mapVisited st' = (l ++ [zone A])%list)
      /\ (In (zone B) (mapVisited st') <->
          zone B <> ""
          /\ exists j C, (0 <= j <= i)%Z /\ index steps j = Some C
                         /\ zone C = zone B).
Proof.
  intros steps st r i A B Hlo Hhi Hidx HA HB Hans.
  assert (Hcur : currentStep steps (saved st) = Some A).
  { unfold currentStep. rewrite Hidx, Z.min_l by lia. exact HA. }
  assert (Hnot : isLast steps (saved st) = false).
  { unfold isLast. rewrite Hidx. apply Z.leb_gt. lia. }
  assert (Hnext : Z.min (stepIndex (saved st) + 1) (len steps - 1) = (i + 1)%Z).
  { rewrite Hidx. lia. }
  assert (Hvis : visitedZones steps (i + 1)
                 = filter truthy (List.map zone (firstn (Z.to_nat (i + 1)) steps))).
  { unfold visitedZones, slice0.
    destruct (Z.ltb_spec (Z.min (i + 1) (len steps)) 0); [lia|].
    rewrite !Z.min_l by lia. reflexivity. }
  unfold onSubmit. rewrite Hcur, Hnot. cbv zeta.
  apply jsstring_eqb_eq in Hans. rewrite Hans, Hnext.
  unfold showMapForNextStep. rewrite Z.min_l by lia. rewrite HB.
  eexists. eexists. split; [reflexivity|]. simpl.
  split; [reflexivity|]. split; [exact Hvis|]. rewrite Hvis. split.
  - intro HzA. rewrite index_nth_error in HA by lia.
    replace (Z.to_nat (i + 1)) with (S (Z.to_nat i)) by lia.
    rewrite (firstn_snoc _ _ _ HA), map_app, filter_app. simpl.
    apply truthy_true in HzA. rewrite HzA. eexists. reflexivity.
  - rewrite filter_In, in_map_iff, truthy_true. split.
    + intros [[C [HzC HinC]] HzB]. split; [exact HzB|].
      apply In_firstn in HinC. destruct HinC as [j [Hj HC]].
      exists (Z.of_nat j), C. split; [lia|]. split; [|exact HzC].
      rewrite index_nth_error by lia. rewrite Nat2Z.id. exact HC.
    + intros [HzB [j [C [Hj [HC HzC]]]]]. split; [|exact HzB].
      exists C. split; [exact HzC|]. apply In_firstn.
      exists (Z.to_nat j). split; [lia|].
      rewrite index_nth_error in HC by lia. exact HC.
Qed.

(** The amended reveal after the first answer of the hunt: the overlay
    points at the second location and lists the first one alone. *)
Lemma reveal_visits_up_to_solved_step_witness :
  exists st' effects,
    onSubmit DEFAULT_STEPS firstAnswerTyped 0 = Some (st', effects)
    /\ mapZone st' = Some "up_bedroom_current"
    /\ mapVisited st' = ["up_corridor"]
    /\ ("up_corridor" <> "" -> exists l, mapVisited st' = (l ++ ["up_corridor"])%list)
    /\ (In "up_bedroom_current" (mapVisited st') <->
        "up_bedroom_current" <> ""
        /\ exists j C, (0 <= j <= 0)%Z /\ index DEFAULT_STEPS j = Some C
                       /\ zone C = "up_bedroom_current").
Proof.
  apply (reveal_visits_up_to_solved_step DEFAULT_STEPS firstAnswerTyped 0%Q 0%Z
           (stepAt 0) (stepAt 1)).
  - lia.
  - vm_compute. reflexivity.
  - reflexivity.
  - reflexivity.
  - reflexivity.
  - vm_compute. reflexivity.
Defined.

(** ** Witnesses on the hunt of the house *)

Lemma DEFAULT_STEPS_nonempty : DEFAULT_STEPS <> [].
Proof. discriminate. Qed.

Lemma fiveSteps_nonempty : fiveSteps <> [].
Proof. discriminate. Qed.

(** Stored progress [stepIndex = 999] against a hunt of five steps: the
    current step is the one at index 4. *)
Lemma currentStep_clamped_witness :
  (0 <= 999)%Z
  /\ exists step,
       currentStep fiveSteps {| stepIndex := 999; unlockedAudio := false |} = Some step
       /\ nth_error fiveSteps 4 = Some step
       /\ ((len fiveSteps - 1 <= 999)%Z -> nth_error fiveSteps 4 = Some step).
Proof.
  split; [lia|].
  apply (currentStep_clamped fiveSteps fiveSteps_nonempty
           {| stepIndex := 999; unlockedAudio := false |}).
  simpl. lia.
Defined.

(** Reset and jump on the hunt of the house, from the eleventh step with
    the audio unlocked. *)
Lemma reset_and_jumpTo_progress_witness :
  let st := initialState {| stepIndex := 10; unlockedAudio := true |} in
  stepIndex (saved (reset st (Some true))) = 0%Z
  /\ unlockedAudio (saved (reset st (Some true))) = true
  /\ stepIndex (saved (jumpTo DEFAULT_STEPS st 99)) = 17%Z
  /\ stepIndex (saved (jumpTo DEFAULT_STEPS st (-3))) = 0%Z
  /\ stepIndex (saved (jumpTo DEFAULT_STEPS st 4)) = 4%Z
  /\ unlockedAudio (saved (jumpTo DEFAULT_STEPS st 4)) = true.
Proof.
  intro st.
  destruct (reset_and_jumpTo_progress DEFAULT_STEPS DEFAULT_STEPS_nonempty st)
    as [R0 [R1 [_ [_ J]]]].
  split; [exact R0|]. split; [exact R1|].
  split; [exact (proj1 (J 99%Z))|]. split; [exact (proj1 (J (-3)%Z))|].
  split; [exact (proj1 (J 4%Z))|exact (proj2 (J 4%Z))].
Defined.

(** A submission of the right code word at the last step of the hunt. *)
Lemma terminal_submit_only_whispers_witness :
  let st := initialState {| stepIndex := 17; unlockedAudio := true |} in
  exists step,
    currentStep DEFAULT_STEPS (saved st) = Some step
    /\ onSubmit DEFAULT_STEPS (setAnswerInput st (str "homebound")) (1 # 2)
       = Some (setAnswerInput st (str "homebound"), whisper step (saved st) (1 # 2))
    /\ (forall e, In e (whisper step (saved st) (1 # 2)) ->
          e = Speak (pick (variants step) (1 # 2)) (62 # 100) (92 # 100)).
Proof.
  intro st.
  apply (terminal_submit_only_whispers DEFAULT_STEPS DEFAULT_STEPS_nonempty st
           (str "homebound") (1 # 2)).
  reflexivity.
Defined.

(** ** The scenarios of the specification *)

(** On the hunt of three steps: "ALPHA " advances to index 1 once the
    reveal is over and not before, "beta?" then advances to index 2, and
    "gamma" at the last step leaves the index at 2. With the audio locked
    nothing is spoken, on wrong answers as on right ones. *)
Example three_step_hunt :
  option_map progress
    (run threeSteps (mount defaultSaved)
       [Typed (str "ALPHA "); Submit 0; Elapse 3799]) = Some 0%Z
  /\ option_map progress
       (run threeSteps (mount defaultSaved)
          [Typed (str "ALPHA "); Submit 0; Elapse 3800]) = Some 1%Z
  /\ option_map progress
       (run threeSteps (mount defaultSaved)
          [Typed (str "ALPHA "); Submit 0; Elapse 3800;
           Typed (str "gamma"); Submit 0; Elapse 3800;
           Typed (str "beta?"); Submit 0; Elapse 3800]) = Some 2%Z
  /\ option_map (fun w => (progress w, spoken w))
       (run threeSteps (mount defaultSaved)
          [Typed (str "ALPHA "); Submit 0; Elapse 3800;
           Typed (str "beta?"); Submit 0; Elapse 3800;
           Typed (str "gamma"); Submit 0; Elapse 3800]) = Some (2%Z, []).
Proof.
  repeat split; vm_compute; reflexivity.
Qed.

(** ** Timers across reset and jump *)

(** Neither [reset] nor [jumpTo] touches the pending timers: the handlers
    keep no handle of the step-advance timer and never clear it. *)
Lemma reset_and_jumpTo_keep_timers (steps : list Step) (w w' : World) :
  (forall confirm, handle steps w (ResetHunt confirm) = Some w' ->
     timers w' = timers w)
  /\ (forall idx, handle steps w (JumpTo idx) = Some w' ->
        timers w' = timers w).
Proof.
  split; intros a H; unfold handle in H;
    destruct (currentStep steps (saved (ui w))); try discriminate H;
    injection H as <-; reflexivity.
Qed.

(** C5 fails on the code. A reset (or a jump) during the reveal leaves the
    step-advance timer of the submission pending: the step index is 0
    after the reset (5 after the jump to 5), and when the 3.8 seconds of
    the reveal are over the stale timer sets it to 1. *)
Theorem stale_advance_fires_after_reset :
  option_map progress
    (run DEFAULT_STEPS (mount defaultSaved)
       (revealInterrupted (ResetHunt (Some true)))) = Some 0%Z
  /\ option_map timers
       (run DEFAULT_STEPS (mount defaultSaved)
          (revealInterrupted (ResetHunt (Some true))))
     = Some [{| due := 3800; callback := AdvanceStep 1 |}]
  /\ option_map progress
       (run DEFAULT_STEPS (mount defaultSaved)
          (revealInterrupted (ResetHunt (Some true)) ++ [Elapse 2800])%list)
     = Some 1%Z
  /\ option_map progress
       (run DEFAULT_STEPS (mount defaultSaved)
          (revealInterrupted (JumpTo 5))) = Some 5%Z
  /\ option_map progress
       (run DEFAULT_STEPS (mount defaultSaved)
          (revealInterrupted (JumpTo 5) ++ [Elapse 2800])%list)
     = Some 1%Z.
Proof.
  repeat split; vm_compute; reflexivity.
Qed.

(** ** What the component stores *)

Lemma insertTimer_Forall (P : Timer -> Prop) (t : Timer) (ts : list Timer) :
  P t -> Forall P ts -> Forall P (insertTimer t ts).
Proof.
  intros Ht Hts. induction Hts as [|u rest Hu Hrest IH]; simpl.
  - constructor; [exact Ht|constructor].
  - destruct (due t <? due u)%Z; repeat constructor; assumption.
Qed.

Lemma perform_timers (t : Z) (effects : list Effect) (ts : list Timer)
    (sp : list (option string)) :
  (forall n delay, In (SetTimeout (AdvanceStep n) delay) effects -> (0 <= n)%Z) ->
  advancesFromZero ts ->
  advancesFromZero (fst (perform t effects ts sp)).
Proof.
  revert ts sp. induction effects as [|e rest IH]; intros ts sp He Hts; simpl.
  - exact Hts.
  - destruct e as [text p q|c delay].
    + apply IH; [|exact Hts]. intros n d Hin. apply (He n d). right. exact Hin.
    + apply IH.
      * intros n d Hin. apply (He n d). right. exact Hin.
      * apply insertTimer_Forall; [|exact Hts]. simpl.
        destruct c as [n|]; [|exact I]. apply (He n delay). left. reflexivity.
Qed.

Lemma fire_progress (t : Z) (ts : list Timer) (st : State) :
  (0 <= stepIndex (saved st))%Z -> advancesFromZero ts ->
  (0 <= stepIndex (saved (fst (fire t ts st))))%Z
  /\ advancesFromZero (snd (fire t ts st)).
Proof.
  intros Hst Hts. revert st Hst.
  induction Hts as [|u rest Hu Hrest IH]; intros st Hst; simpl.
  - split; [exact Hst|constructor].
  - destruct (due u <=? t)%Z.
    + apply IH. destruct (callback u); simpl; assumption.
    + split; [exact Hst|]. constructor; assumption.
Qed.

Lemma onSubmit_progress (steps : list Step) (st st' : State) (r : Q)
    (effects : list Effect) :
  steps <> [] -> (0 <= stepIndex (saved st))%Z ->
  onSubmit steps st r = Some (st', effects) ->
  stepIndex (saved st') = stepIndex (saved st)
  /\ forall n delay, In (SetTimeout (AdvanceStep n) delay) effects -> (0 <= n)%Z.
Proof.
  intros Hne Hst H. unfold onSubmit in H.
  assert (Hlen : (0 < len steps)%Z).
  { unfold len. destruct steps; [congruence|simpl; lia]. }
  destruct (currentStep steps (saved st)) as [step|]; [|discriminate H].
  destruct (isLast steps (saved st)).
  - injection H as <- <-. split; [reflexivity|].
    intros n d Hin. unfold whisper in Hin.
    destruct (negb (unlockedAudio (saved st))); simpl in Hin; [destruct Hin|].
    destruct Hin as [Hin|[]]. discriminate Hin.
  - cbv zeta in H.
    destruct (jsstring_eqb _ _).
    + unfold showMapForNextStep in H.
      destruct (index steps _) as [next|]; [|discriminate H].
      injection H as <- <-. split; [reflexivity|].
      intros n d Hin. apply in_app_or in Hin. destruct Hin as [Hin|Hin].
      * simpl in Hin. destruct (unlockedAudio (saved st)); simpl in Hin.
        -- destruct Hin as [Hin|[]]. discriminate Hin.
        -- destruct Hin.
      * destruct Hin as [Hin|[]]. injection Hin as <- _. lia.
    + injection H as <- <-. split; [reflexivity|].
      intros n d [Hin|Hin]; [discriminate Hin|].
      destruct (unlockedAudio (saved st)); simpl in Hin.
      * destruct Hin as [Hin|[]]. discriminate Hin.
      * destruct Hin.
Qed.

(** Every step index the component stores is 0 or more: from a stored
    index that is not negative, no sequence of events leads to a negative
    one. *)
Lemma run_progress_nonnegative (steps : list Step) (es : list Event) :
  steps <> [] ->
  forall w w',
    (0 <= progress w)%Z -> advancesFromZero (timers w) ->
    run steps w es = Some w' ->
    (0 <= progress w')%Z /\ advancesFromZero (timers w').
Proof.
  intro Hne. induction es as [|e rest IH]; intros w w' Hp Ht H; simpl in H.
  - injection H as <-. split; assumption.
  - destruct (handle steps w e) as [w1|] eqn:E; [|discriminate H].
    apply (IH w1 w'); try exact H;
      unfold handle in E; unfold progress in *;
      destruct (currentStep steps (saved (ui w))) as [step|]; try discriminate E;
      destruct e as [text|r|r|  |confirm|idx| |ms].
    all: try (injection E as <-; simpl; first [exact Hp | exact Ht]).
    + destruct (onSubmit steps (ui w) r) as [[st effects]|] eqn:S; [|discriminate E].
      injection E as <-. unfold after. simpl.
      destruct (perform (now w) effects (timers w) (spoken w)) eqn:P. simpl.
      destruct (onSubmit_progress steps (ui w) st r effects Hne Hp S) as [-> _].
      exact Hp.
    + injection E as <-. unfold after, whisper. simpl.
      destruct (negb (unlockedAudio (saved (ui w)))); simpl; exact Hp.
    + injection E as <-. destruct confirm as [[|]|]; simpl; first [exact Hp | lia].
    + injection E as <-. simpl. lia.
    + destruct (fire (now w + ms) (timers w) (ui w)) as [st ts] eqn:F.
      injection E as <-. simpl.
      pose proof (fire_progress (now w + ms) (timers w) (ui w) Hp Ht) as [Q _].
      rewrite F in Q. exact Q.
    + destruct (onSubmit steps (ui w) r) as [[st effects]|] eqn:S; [|discriminate E].
      injection E as <-. unfold after. simpl.
      destruct (onSubmit_progress steps (ui w) st r effects Hne Hp S) as [_ Hn].
      pose proof (perform_timers (now w) effects (timers w) (spoken w) Hn Ht) as Q.
      destruct (perform (now w) effects (timers w) (spoken w)). exact Q.
    + injection E as <-. unfold after, whisper. simpl.
      destruct (negb (unlockedAudio (saved (ui w)))); simpl; exact Ht.
    + destruct (fire (now w + ms) (timers w) (ui w)) as [st ts] eqn:F.
      injection E as <-. simpl.
      pose proof (fire_progress (now w + ms) (timers w) (ui w) Hp Ht) as [_ Q].
      rewrite F in Q. exact Q.
Qed.

(** * Further properties of the code *)

(** ** The normalizer on all inputs *)

(** White space is none of the printable ASCII characters but the space. *)
Lemma isWhiteSpace_ascii (c : N) :
  (0x21 <= c <= 0x7E)%N -> isWhiteSpace c = false.
Proof.
  intro H. unfold isWhiteSpace. simpl existsb.
  repeat match goal with
         | |- context [(c =? ?k)%N] => destruct (N.eqb_spec c k); [lia|]
         | |- context [(?k <=? c)%N] => destruct (N.leb_spec k c); [lia|]
         end.
  reflexivity.
Qed.

Lemma spaced_plain (b : bool) (s : jsstring) :
  spaced b s -> Forall (fun c => plainUnit c = true) s.
Proof.
  revert b. induction s as [|c rest IH]; intros b H; constructor.
  - destruct H as [Hk [Hw _]]. unfold plainUnit. unfold isKept in Hk.
    destruct (isWhiteSpace c).
    + destruct (Hw eq_refl) as [-> _]. reflexivity.
    + rewrite orb_false_r in Hk.
      apply orb_prop in Hk. destruct Hk as [Hk|Hk].
      * rewrite Hk. reflexivity.
      * rewrite Hk. rewrite !orb_true_r. reflexivity.
  - apply (IH (isWhiteSpace c)), H.
Qed.

Lemma spaced_no_double_space (b : bool) (s s1 s2 : jsstring) :
  spaced b s -> s <> (s1 ++ 0x20%N :: 0x20%N :: s2)%list.
Proof.
  revert b s. induction s1 as [|c s1 IH]; intros b s H E; subst s; simpl in H.
  - destruct H as [_ [_ [_ [Hw _]]]].
    destruct (Hw eq_refl) as [_ Hf]. discriminate Hf.
  - destruct H as [_ [_ H]]. exact (IH _ _ H eq_refl).
Qed.

(** X1. The output of [normalize] holds nothing but lower-case letters,
    digits, hyphens and spaces, and never two spaces in a row. *)
Theorem normalize_output_plain (v : value) :
  Forall (fun c => plainUnit c = true) (normalize v)
  /\ forall s1 s2, normalize v <> (s1 ++ 0x20%N :: 0x20%N :: s2)%list.
Proof.
  split.
  - apply (spaced_plain false), normalize_spaced.
  - intros s1 s2. apply (spaced_no_double_space false), normalize_spaced.
Qed.

(** X2. A second pass of [normalize] does nothing but trim the result of the
    first, and from the second pass on the result no longer changes: the
    normalizer settles after two passes on every input. *)
Theorem normalize_settles_after_two_passes (v : value) :
  normalize (JString (normalize v)) = trim (normalize v)
  /\ normalize (JString (normalize (JString (normalize v))))
     = normalize (JString (normalize v)).
Proof.
  split.
  - apply normalize_second_pass.
  - apply normalize_stable_from_second_pass.
Qed.

Lemma survives_low (c : N) :
  survives c = true ->
  lowerUnit c = [low c]
  /\ isKept (low c) = true
  /\ isWhiteSpace (low c) = isWhiteSpace c.
Proof.
  unfold survives, low. intro H.
  destruct (isCapital c) eqn:C.
  - unfold isCapital in C. unfold lowerUnit. rewrite C.
    apply andb_prop in C. destruct C as [C1 C2].
    apply N.leb_le in C1. apply N.leb_le in C2.
    split; [reflexivity|]. split.
    + unfold isKept.
      destruct (N.leb_spec 0x61 (c + 0x20)); [|lia].
      destruct (N.leb_spec (c + 0x20) 0x7A); [|lia]. reflexivity.
    + rewrite !isWhiteSpace_ascii by lia. reflexivity.
  - rewrite orb_false_r in H. split; [|split; [exact H|reflexivity]].
    apply isKept_lowerUnit. exact H.
Qed.

Lemma strip_lower_survivors (s : jsstring) :
  Forall (fun c => survives c = true) s ->
  stripDisallowed (toLowerCase s) = List.map low s.
Proof.
  unfold stripDisallowed, toLowerCase.
  induction 1 as [|c rest Hc Hrest IH]; simpl; [reflexivity|].
  destruct (survives_low c Hc) as [-> [K _]]. simpl. rewrite K, IH. reflexivity.
Qed.

Lemma startsPlain_map_low (s : jsstring) :
  Forall (fun c => survives c = true) s ->
  startsPlain s -> startsPlain (List.map low s).
Proof.
  intros H P. destruct H as [|c rest Hc Hrest]; simpl; [exact I|].
  destruct (survives_low c Hc) as [_ [_ ->]]. exact P.
Qed.

Lemma Forall_trimStart (P : N -> Prop) (s : jsstring) :
  Forall P s -> Forall P (trimStart s).
Proof.
  induction 1 as [|c rest Hc Hrest IH]; simpl; [constructor|].
  destruct (isWhiteSpace c); [exact IH|constructor; assumption].
Qed.

Lemma Forall_trim (P : N -> Prop) (s : jsstring) :
  Forall P s -> Forall P (trim s).
Proof.
  intro H. unfold trim, trimEnd.
  apply Forall_rev, Forall_trimStart, Forall_rev, Forall_trimStart, H.
Qed.

Lemma trim_startsPlain (s : jsstring) :
  startsPlain (trim s) /\ startsPlain (rev (trim s)).
Proof.
  split.
  - apply trimEnd_startsPlain, trimStart_startsPlain.
  - unfold trim, trimEnd. rewrite rev_involutive. apply trimStart_startsPlain.
Qed.

Lemma collapseFrom_startsPlain (b : bool) (s : jsstring) :
  startsPlain s -> startsPlain (collapseFrom b s).
Proof.
  destruct s as [|c rest]; simpl; [trivial|].
  intro W. rewrite W. simpl. exact W.
Qed.

Lemma collapseFrom_snoc (b : bool) (s : jsstring) (c : N) :
  isWhiteSpace c = false ->
  collapseFrom b (s ++ [c])%list = (collapseFrom b s ++ [c])%list.
Proof.
  intro W. revert b. induction s as [|d rest IH]; intro b; simpl.
  - rewrite W. reflexivity.
  - destruct (isWhiteSpace d); [destruct b|]; rewrite IH; reflexivity.
Qed.

Lemma collapseFrom_endsPlain (b : bool) (s : jsstring) :
  startsPlain (rev s) -> startsPlain (rev (collapseFrom b s)).
Proof.
  destruct s as [|c s] using rev_ind; [trivial|].
  rewrite rev_app_distr. simpl. intro W.
  rewrite (collapseFrom_snoc b s c W), rev_app_distr. simpl. exact W.
Qed.

Lemma trim_plain_ends (s : jsstring) :
  startsPlain s -> startsPlain (rev s) -> trim s = s.
Proof.
  intros P Q. unfold trim, trimEnd.
  rewrite (startsPlain_trimStart s P), (startsPlain_trimStart (rev s) Q).
  apply rev_involutive.
Qed.

(** X3. On text made of letters, digits, hyphens and white space only, in
    either case and with any spacing, [normalize] is idempotent: the
    first pass already leaves no space at either end. *)
Theorem normalize_idempotent_without_punctuation (x : jsstring) :
  Forall (fun c => survives c = true) x ->
  normalize (JString (normalize (JString x))) = normalize (JString x).
Proof.
  intro H. rewrite normalize_second_pass.
  apply trim_plain_ends; unfold normalize, collapseWhitespace;
    simpl orEmptyToString;
    rewrite (strip_lower_survivors _ (Forall_trim _ _ H)).
  - apply collapseFrom_startsPlain, startsPlain_map_low.
    + apply Forall_trim, H.
    + apply trim_startsPlain.
  - apply collapseFrom_endsPlain. rewrite <- map_rev.
    apply startsPlain_map_low.
    + apply Forall_rev, Forall_trim, H.
    + apply trim_startsPlain.
Qed.

(** Idempotence on the text "  Cross-Roads  9 ". *)
Lemma normalize_idempotent_without_punctuation_witness :
  normalize (JString (normalize (JString (str "  Cross-Roads  9 "))))
  = normalize (JString (str "  Cross-Roads  9 ")).
Proof.
  apply (normalize_idempotent_without_punctuation (str "  Cross-Roads  9 ")).
  repeat constructor.
Defined.

Lemma sameLetter_isWhiteSpace (a b : N) :
  sameLetter a b -> isWhiteSpace a = isWhiteSpace b.
Proof.
  unfold isCapital.
  intros [->|[[C ->]|[C ->]]]; [reflexivity| |];
    apply andb_prop in C; destruct C as [C1 C2];
    apply N.leb_le in C1; apply N.leb_le in C2;
    rewrite !isWhiteSpace_ascii by lia; reflexivity.
Qed.

Lemma lowerUnit_letter (c : N) :
  isCapital c = true -> lowerUnit (c + 0x20) = lowerUnit c.
Proof.
  intro C. unfold lowerUnit. unfold isCapital in C. rewrite C.
  apply andb_prop in C. destruct C as [C1 C2].
  apply N.leb_le in C1. apply N.leb_le in C2.
  destruct (N.leb_spec 0x41 (c + 0x20)); [|lia].
  destruct (N.leb_spec (c + 0x20) 0x5A); [lia|]. simpl.
  destruct (N.eqb_spec (c + 0x20) 0x212A); [lia|].
  destruct (N.eqb_spec (c + 0x20) 0x0130); [lia|]. reflexivity.
Qed.

Lemma sameLetter_lowerUnit (a b : N) :
  sameLetter a b -> lowerUnit a = lowerUnit b.
Proof.
  intros [->|[[C ->]|[C ->]]]; [reflexivity| |].
  - symmetry. apply lowerUnit_letter, C.
  - apply lowerUnit_letter, C.
Qed.

Lemma sameLetter_trimStart (x y : jsstring) :
  Forall2 sameLetter x y -> Forall2 sameLetter (trimStart x) (trimStart y).
Proof.
  induction 1 as [|a b x y Hab Hxy IH]; simpl; [constructor|].
  rewrite <- (sameLetter_isWhiteSpace a b Hab).
  destruct (isWhiteSpace a); [exact IH|constructor; assumption].
Qed.

Lemma Forall2_rev' {A : Type} (R : A -> A -> Prop) (x y : list A) :
  Forall2 R x y -> Forall2 R (rev x) (rev y).
Proof.
  induction 1 as [|a b x y Hab Hxy IH]; simpl; [constructor|].
  apply Forall2_app; [exact IH|]. constructor; [exact Hab|constructor].
Qed.

Lemma sameLetter_toLowerCase (x y : jsstring) :
  Forall2 sameLetter x y -> toLowerCase x = toLowerCase y.
Proof.
  unfold toLowerCase.
  induction 1 as [|a b x y Hab Hxy IH]; simpl; [reflexivity|].
  rewrite (sameLetter_lowerUnit a b Hab), IH. reflexivity.
Qed.

(** X4. [normalize] ignores the case of ASCII letters: two texts that differ
    only in the case of some of their letters have the same normal
    form. *)
Theorem normalize_ignores_case (x y : jsstring) :
  Forall2 sameLetter x y -> normalize (JString x) = normalize (JString y).
Proof.
  intro H. unfold normalize. simpl orEmptyToString.
  rewrite (sameLetter_toLowerCase (trim x) (trim y)); [reflexivity|].
  unfold trim, trimEnd.
  apply Forall2_rev', sameLetter_trimStart, Forall2_rev', sameLetter_trimStart, H.
Qed.

(** The code word of the first step in mixed case. *)
Lemma normalize_ignores_case_witness :
  normalize (JString (str "CrossRoads")) = normalize (JString (str "crossroads")).
Proof.
  apply (normalize_ignores_case (str "CrossRoads") (str "crossroads")).
  repeat constructor; unfold sameLetter;
    first [left; reflexivity | right; left; split; reflexivity].
Defined.

(** ** Voice selection *)

Lemma find_first {A : Type} (f : A -> bool) (l : list A) (a : A) :
  find f l = Some a ->
  exists l1 l2, l = (l1 ++ a :: l2)%list /\ f a = true
                /\ Forall (fun u => f u = false) l1.
Proof.
  induction l as [|b l IH]; simpl; [discriminate|].
  destruct (f b) eqn:E.
  - intro H. injection H as ->. exists [], l. repeat split; [exact E|constructor].
  - intro H. destruct (IH H) as [l1 [l2 [-> [Ha Hl1]]]].
    exists (b :: l1), l2. repeat split; [exact Ha|constructor; assumption].
Qed.

Lemma find_none_Forall {A : Type} (f : A -> bool) (l : list A) :
  find f l = None -> Forall (fun u => f u = false) l.
Proof.
  intro H. apply Forall_forall. intros u Hu. exact (find_none f l H u Hu).
Qed.

Lemma firstPreferred_spec (rxs : list string) (voices : list Speech.Voice) :
  match Speech.firstPreferred rxs voices with
  | Some v =>
      exists p1 rx p2 v1 v2,
        rxs = (p1 ++ rx :: p2)%list /\ voices = (v1 ++ v :: v2)%list
        /\ Speech.voiceMatches rx v = true
        /\ unmatched v1 rx
        /\ Forall (unmatched voices) p1
  | None => Forall (unmatched voices) rxs
  end.
Proof.
  induction rxs as [|rx rest IH]; simpl; [constructor|].
  destruct (find (Speech.voiceMatches rx) voices) as [v|] eqn:F.
  - destruct (find_first _ _ _ F) as [v1 [v2 [-> [Hv Hv1]]]].
    exists [], rx, rest, v1, v2. repeat split; try assumption. constructor.
  - apply find_none_Forall in F.
    destruct (Speech.firstPreferred rest voices) as [v|].
    + destruct IH as [p1 [q [p2 [v1 [v2 [-> [-> [Hv [Hv1 Hp1]]]]]]]]].
      exists (rx :: p1), q, p2, v1, v2. repeat split; try assumption.
      constructor; assumption.
    + constructor; assumption.
Qed.

(** X5. [pickVoice] returns [null] exactly on the empty list, and otherwise
    one of the voices it was given. *)
Theorem pickVoice_null_iff_empty (voices : list Speech.Voice) :
  (Speech.pickVoice voices = None <-> voices = [])
  /\ forall v, Speech.pickVoice voices = Some v -> In v voices.
Proof.
  unfold Speech.pickVoice.
  pose proof (firstPreferred_spec Speech.preferred voices) as S.
  destruct (Speech.firstPreferred Speech.preferred voices) as [u|].
  - destruct S as [p1 [rx [p2 [v1 [v2 [_ [-> _]]]]]]]. split.
    + split; [discriminate|]. intro E. destruct v1; discriminate E.
    + intros v H. injection H as <-. apply in_elt.
  - split.
    + destruct voices; simpl; split; congruence.
    + intros v H. destruct voices; simpl in H; [discriminate H|].
      injection H as <-. left. reflexivity.
Qed.

(** X6. The priority of [pickVoice]. The voice it returns matches the
    earliest pattern of [preferred] that any voice matches, and is the
    first voice of the list that matches this pattern; where no voice
    matches any pattern, it is the first voice of the list. *)
Theorem pickVoice_priority (voices : list Speech.Voice) (v : Speech.Voice) :
  Speech.pickVoice voices = Some v ->
  (exists p1 rx p2 v1 v2,
      Speech.preferred = (p1 ++ rx :: p2)%list
      /\ voices = (v1 ++ v :: v2)%list
      /\ Speech.voiceMatches rx v = true
      /\ unmatched v1 rx
      /\ Forall (unmatched voices) p1)
  \/ (Forall (unmatched voices) Speech.preferred /\ hd_error voices = Some v).
Proof.
  unfold Speech.pickVoice.
  pose proof (firstPreferred_spec Speech.preferred voices) as S.
  destruct (Speech.firstPreferred Speech.preferred voices) as [u|].
  - intro H. injection H as <-. left. exact S.
  - intro H. right. split; assumption.
Qed.

(** On the two voices of the phone the second is chosen: [/daniel/i]
    stands before [/en-us/i]. *)
Lemma pickVoice_priority_witness :
  Speech.pickVoice phoneVoices = Some daniel
  /\ ((exists p1 rx p2 v1 v2,
          Speech.preferred = (p1 ++ rx :: p2)%list
          /\ phoneVoices = (v1 ++ daniel :: v2)%list
          /\ Speech.voiceMatches rx daniel = true
          /\ unmatched v1 rx
          /\ Forall (unmatched phoneVoices) p1)
      \/ (Forall (unmatched phoneVoices) Speech.preferred
          /\ hd_error phoneVoices = Some daniel)).
Proof.
  split; [reflexivity|].
  apply (pickVoice_priority phoneVoices). reflexivity.
Defined.

(** ** Narration *)

Lemma pick_some_in {A : Type} (xs : list A) (r : Q) (a : A) :
  pick xs r = Some a -> In a xs.
Proof.
  unfold pick, index. destruct (_ <? 0)%Z; [discriminate|].
  apply nth_error_In.
Qed.

Lemma allLines_nonempty (fromG toG : string) : allLines fromG toG <> [].
Proof.
  unfold allLines. destruct (directional fromG toG) as [|d ds].
  - discriminate.
  - unfold len. simpl List.length.
    destruct (Z.eqb_spec (Z.of_nat (S (List.length ds))) 0); discriminate.
Qed.

(** X7. [mapRevealLine] always has a line to say: for every step id, every
    pair of zones (defined or not) and every draw, the result is a line
    and never [undefined]. *)
Theorem mapRevealLine_defined (nextStepId : Z) (fromZone toZone : option string)
    (r : Q) :
  (0 <= r)%Q -> (r < 1)%Q ->
  exists line, mapRevealLine nextStepId fromZone toZone r = Some line.
Proof.
  intros Hlo Hhi. unfold mapRevealLine.
  destruct (specialBeat nextStepId) as [line|]; [exists line; reflexivity|].
  destruct (pick_in (allLines (zoneGroup fromZone) (zoneGroup toZone)) r
              (allLines_nonempty _ _) Hlo Hhi) as [line [E _]].
  exists line. exact E.
Qed.

(** A reveal with no zone to come from, as after a stale index. *)
Lemma mapRevealLine_defined_witness :
  exists line, mapRevealLine 3 None (Some "garage") (99 # 100) = Some line.
Proof.
  apply (mapRevealLine_defined 3%Z None (Some "garage") (99 # 100)).
  - unfold Qle. simpl. lia.
  - unfold Qlt. simpl. lia.
Defined.

Lemma specialBeat_lines (nextStepId : Z) (line : string) :
  specialBeat nextStepId = Some line ->
  line <> downstairsLine /\ line <> outsideLine /\ line <> upstairsLine.
Proof.
  unfold specialBeat.
  repeat match goal with
         | |- context [(nextStepId =? ?k)%Z] => destruct (nextStepId =? k)%Z
         end;
    intro H; try discriminate H; injection H as <-;
    repeat split; intro E; vm_compute in E; discriminate E.
Qed.

Lemma directional_lines (fromG toG line : string) :
  In line (allLines fromG toG) ->
  (line = downstairsLine -> fromG = "up" /\ toG = "down")
  /\ (line = outsideLine -> fromG <> "out" /\ toG = "out")
  /\ (line = upstairsLine -> toG = "up").
Proof.
  unfold allLines, directional.
  destruct (String.eqb_spec fromG "up");
    destruct (String.eqb_spec toG "down");
    destruct (String.eqb_spec fromG "out");
    destruct (String.eqb_spec toG "out");
    destruct (String.eqb_spec toG "up");
    simpl; intro H;
    repeat (destruct H as [H|H]; [subst line|]); try destruct H;
    (split; [|split]); intro E;
    try (unfold downstairsLine, outsideLine, upstairsLine in E; discriminate E);
    repeat split; try assumption; try congruence.
Qed.

Lemma directional_line_sources (nextStepId : Z)
    (fromZone toZone : option string) (r : Q) (line : string) :
  mapRevealLine nextStepId fromZone toZone r = Some line ->
  (line = downstairsLine ->
     specialBeat nextStepId = None
     /\ zoneGroup fromZone = "up" /\ zoneGroup toZone = "down")
  /\ (line = outsideLine ->
        specialBeat nextStepId = None
        /\ zoneGroup fromZone <> "out" /\ zoneGroup toZone = "out")
  /\ (line = upstairsLine ->
        specialBeat nextStepId = None /\ zoneGroup toZone = "up").
Proof.
  unfold mapRevealLine.
  destruct (specialBeat nextStepId) as [beat|] eqn:B.
  - intro H. injection H as <-.
    destruct (specialBeat_lines nextStepId beat B) as [N1 [N2 N3]].
    (split; [|split]); intro E; contradiction.
  - intro H. apply pick_some_in in H.
    destruct (directional_lines _ _ _ H) as [D1 [D2 D3]].
    (split; [|split]); intro E.
    + destruct (D1 E). repeat split; assumption.
    + destruct (D2 E). repeat split; assumption.
    + split; [reflexivity|exact (D3 E)].
Qed.

(** X8. When the direction-aware lines can be said. "Downstairs now" is drawn
    only on the way from the upper to the lower floor, "Outside" only on
    the way out of the house, "Back upstairs" only towards the upper
    floor (from anywhere, the upper floor included), and none of them for
    the step ids 7, 10, 16, 17 and 18 of the special beats. *)
Theorem directional_line_conditions (nextStepId : Z)
    (fromZone toZone : option string) (r : Q) (line : string) :
  mapRevealLine nextStepId fromZone toZone r = Some line ->
  (line = downstairsLine ->
     specialBeat nextStepId = None
     /\ zoneGroup fromZone = "up" /\ zoneGroup toZone = "down")
  /\ (line = outsideLine ->
        specialBeat nextStepId = None
        /\ zoneGroup fromZone <> "out" /\ zoneGroup toZone = "out")
  /\ (line = upstairsLine ->
        specialBeat nextStepId = None /\ zoneGroup toZone = "up").
Proof.
  apply directional_line_sources.
Qed.

(** Down the stairs to the study the draw [r = 0] says "Downstairs now". *)
Lemma directional_line_conditions_witness :
  mapRevealLine 8 (Some "stairs_transition") (Some "study") 0 = Some downstairsLine
  /\ specialBeat 8 = None
  /\ zoneGroup (Some "stairs_transition") = "up"
  /\ zoneGroup (Some "study") = "down".
Proof.
  split; [reflexivity|].
  apply (directional_line_conditions 8%Z (Some "stairs_transition") (Some "study")
           0%Q downstairsLine); reflexivity.
Defined.

(** X9. On the hunt of the house the line "Outside... where my laugh travels
    farther" is never said: each of its outdoor steps (16, 17 and 18) is a
    special beat, so no reveal, whatever the progress, the audio flag and
    the draw, hands this line to [speak]. *)
Theorem outside_line_never_said (st st' : State) (nextIndex : Z) (r : Q)
    (effects : list Effect) (pitch rate : Q) :
  showMapForNextStep DEFAULT_STEPS st nextIndex r = Some (st', effects) ->
  ~ In (Speak (Some outsideLine) pitch rate) effects.
Proof.
  unfold showMapForNextStep.
  destruct (index DEFAULT_STEPS (Z.min nextIndex (len DEFAULT_STEPS - 1)))
    as [next|] eqn:N; [|discriminate].
  intro H. injection H as _ <-.
  destruct (unlockedAudio (saved st)); [|intros []].
  intros [E|[]]. injection E as E _ _.
  destruct (directional_line_sources _ _ _ _ _ E) as [_ [D _]].
  destruct (D eq_refl) as [B [_ G]].
  assert (P : plainOutdoorStep next = true).
  { unfold plainOutdoorStep. rewrite B, G. reflexivity. }
  assert (A : forallb (fun s => negb (plainOutdoorStep s)) DEFAULT_STEPS = true)
    by (vm_compute; reflexivity).
  rewrite forallb_forall in A.
  unfold index in N. destruct (_ <? 0)%Z; [discriminate N|].
  apply nth_error_In in N. specialize (A next N). rewrite P in A. discriminate A.
Qed.

(** The reveal towards the yard, with the audio unlocked. *)
Lemma outside_line_never_said_witness :
  exists st' effects,
    showMapForNextStep DEFAULT_STEPS
      (initialState {| stepIndex := 14; unlockedAudio := true |}) 15 (1 # 6)
    = Some (st', effects)
    /\ ~ In (Speak (Some outsideLine) (62 # 100) (92 # 100)) effects.
Proof.
  destruct (showMapForNextStep DEFAULT_STEPS
              (initialState {| stepIndex := 14; unlockedAudio := true |}) 15 (1 # 6))
    as [[st' effects]|] eqn:E; [|vm_compute in E; discriminate E].
  exists st', effects. split; [reflexivity|].
  apply (outside_line_never_said _ st' 15%Z (1 # 6) effects _ _ E).
Defined.

(** X10. [whisper] is silent while the audio is locked; once it is unlocked,
    it says exactly one line, one of the four candidates (the line of the
    current step and three fillers), and each of the four is the outcome
    of some draw. *)
Theorem whisper_says_one_variant (step : Step) (sv : Saved) :
  (unlockedAudio sv = false -> forall r, whisper step sv r = [])
  /\ (unlockedAudio sv = true ->
      (forall r, (0 <= r)%Q -> (r < 1)%Q ->
         exists line,
           whisper step sv r = [Speak (Some line) (62 # 100) (92 # 100)]
           /\ In line (variants step))
      /\ (forall line, In line (variants step) ->
            exists r, (0 <= r)%Q /\ (r < 1)%Q
                      /\ whisper step sv r
                         = [Speak (Some line) (62 # 100) (92 # 100)])).
Proof.
  unfold whisper. split; intros ->; cbn [negb].
  - reflexivity.
  - split.
    + intros r Hlo Hhi.
      destruct (pick_in (variants step) r) as [line [E Hin]];
        [discriminate|assumption|assumption|].
      exists line. rewrite E. split; [reflexivity|exact Hin].
    + intros line Hin. destruct (pick_any _ _ Hin) as [r [Hlo [Hhi E]]].
      exists r. rewrite E. repeat split; assumption.
Qed.

(** ** Submissions *)

Lemma whisper_speech (step : Step) (sv : Saved) (r : Q) :
  Forall isSpeak (whisper step sv r)
  /\ (unlockedAudio sv = false -> whisper step sv r = []).
Proof.
  unfold whisper. destruct (unlockedAudio sv); simpl.
  - split; [|discriminate]. repeat constructor. eexists _, _, _. reflexivity.
  - split; [constructor|reflexivity].
Qed.

(** The three ways of a submission. *)
Lemma onSubmit_shape (steps : list Step) (st st' : State) (r : Q)
    (effects : list Effect) :
  onSubmit steps st r = Some (st', effects) ->
  saved st' = saved st
  /\ exists step speech,
       currentStep steps (saved st) = Some step
       /\ Forall isSpeak speech
       /\ (unlockedAudio (saved st) = false -> speech = [])
       /\ ((isLast steps (saved st) = true /\ st' = st /\ effects = speech)
           \/ (isLast steps (saved st) = false
               /\ normalize (JString (answerInput st))
                  = normalize (JString (answer step))
               /\ mapOpen st' = true
               /\ effects
                  = (speech
                     ++ [SetTimeout
                           (AdvanceStep (Z.min (stepIndex (saved st) + 1)
                                               (len steps - 1))) 3800])%list)
           \/ (isLast steps (saved st) = false
               /\ normalize (JString (answerInput st))
                  <> normalize (JString (answer step))
               /\ st' = setShake st true
               /\ effects = SetTimeout StopShake 450 :: speech)).
Proof.
  unfold onSubmit.
  destruct (currentStep steps (saved st)) as [step|]; [|discriminate].
  destruct (isLast steps (saved st)).
  - intro H. injection H as <- <-. split; [reflexivity|].
    exists step, (whisper step (saved st) r).
    destruct (whisper_speech step (saved st) r) as [W1 W2].
    repeat split; try assumption. left. repeat split.
  - cbv zeta.
    destruct (jsstring_eqb _ _) eqn:J.
    + apply jsstring_eqb_eq in J. unfold showMapForNextStep.
      destruct (index steps _) as [next|]; [|discriminate].
      intro H. injection H as <- <-. split; [reflexivity|].
      exists step. eexists. split; [reflexivity|]. simpl saved.
      split; [|split]; [| |right; left; repeat split; try reflexivity; exact J].
      * destruct (unlockedAudio (saved st)); repeat constructor.
        eexists _, _, _. reflexivity.
      * intros ->. reflexivity.
    + intro H. injection H as <- <-. split; [reflexivity|].
      exists step. eexists. split; [reflexivity|].
      split; [|split];
        [| |right; right; repeat split; try reflexivity;
            intro E; apply jsstring_eqb_eq in E; congruence].
      * destruct (unlockedAudio (saved st)); repeat constructor.
        eexists _, _, _. reflexivity.
      * intros ->. reflexivity.
Qed.

Lemma submit_advances_iff_correct_aux (steps : list Step) (st : State) (r : Q)
    (step : Step) :
  currentStep steps (saved st) = Some step ->
  exists st' effects, onSubmit steps st r = Some (st', effects).
Proof.
  intro C.
  assert (R : (0 <= Z.min (stepIndex (saved st)) (len steps - 1))%Z).
  { unfold currentStep, index in C.
    destruct (Z.ltb_spec (Z.min (stepIndex (saved st)) (len steps - 1)) 0);
      [discriminate C|assumption]. }
  destruct (onSubmit steps st r) as [[st' effects]|] eqn:E;
    [exists st', effects; reflexivity|].
  exfalso. unfold onSubmit in E. rewrite C in E.
  destruct (isLast steps (saved st)) eqn:L; [discriminate E|].
  cbv zeta in E. destruct (jsstring_eqb _ _); [|discriminate E].
  unfold showMapForNextStep in E. unfold isLast in L. apply Z.leb_gt in L.
  destruct (index_in_range steps
              (Z.min (Z.min (stepIndex (saved st) + 1) (len steps - 1))
                     (len steps - 1))) as [next [N _]]; [lia|].
  rewrite N in E. discriminate E.
Qed.

(** X11. A submission sets the step-advance timer exactly when the step is not
    the last one and the typed text has the normal form of the expected
    code word. The timer then leads to the next index after 3800 ms; the
    step index itself is not changed by the submission. While the
    component is rendered a submission never fails. *)
Theorem submit_advances_iff_correct (steps : list Step) (st : State) (r : Q)
    (step : Step) :
  currentStep steps (saved st) = Some step ->
  exists st' effects,
    onSubmit steps st r = Some (st', effects)
    /\ saved st' = saved st
    /\ ((exists n d, In (SetTimeout (AdvanceStep n) d) effects) <->
        (stepIndex (saved st) < len steps - 1)%Z
        /\ normalize (JString (answerInput st)) = normalize (JString (answer step)))
    /\ (forall n d, In (SetTimeout (AdvanceStep n) d) effects ->
          n = (stepIndex (saved st) + 1)%Z /\ d = 3800%Z).
Proof.
  intro C.
  assert (R : (0 <= Z.min (stepIndex (saved st)) (len steps - 1))%Z).
  { unfold currentStep, index in C.
    destruct (Z.ltb_spec (Z.min (stepIndex (saved st)) (len steps - 1)) 0);
      [discriminate C|assumption]. }
  destruct (onSubmit steps st r) as [[st' effects]|] eqn:E.
  - exists st', effects. split; [reflexivity|].
    destruct (onSubmit_shape steps st st' r effects E)
      as [S [step' [speech [C' [Sp [_ Cases]]]]]].
    rewrite C in C'. injection C' as <-. split; [exact S|].
    assert (NoAdv : forall n d, ~ In (SetTimeout (AdvanceStep n) d) speech).
    { intros n d Hin. rewrite Forall_forall in Sp.
      destruct (Sp _ Hin) as [t [p [q X]]]. discriminate X. }
    unfold isLast in Cases.
    destruct Cases as [[L [_ ->]]|[[L [A [_ ->]]]|[L [A [_ ->]]]]].
    + apply Z.leb_le in L. split.
      * split; [intros [n [d Hin]]; destruct (NoAdv n d Hin)|lia].
      * intros n d Hin. destruct (NoAdv n d Hin).
    + apply Z.leb_gt in L. split.
      * split; [intros _; split; [lia|exact A]|].
        intros _. eexists _, _. apply in_or_app. right. left. reflexivity.
      * intros n d Hin. apply in_app_or in Hin.
        destruct Hin as [Hin|[Hin|[]]]; [destruct (NoAdv n d Hin)|].
        injection Hin as <- <-. lia.
    + split.
      * split; [|intros [_ A']; contradiction].
        intros [n [d [Hin|Hin]]]; [discriminate Hin|destruct (NoAdv n d Hin)].
      * intros n d [Hin|Hin]; [discriminate Hin|destruct (NoAdv n d Hin)].
  - exfalso. unfold onSubmit in E. rewrite C in E.
    destruct (isLast steps (saved st)) eqn:L; [discriminate E|].
    cbv zeta in E. destruct (jsstring_eqb _ _); [|discriminate E].
    unfold showMapForNextStep in E. unfold isLast in L. apply Z.leb_gt in L.
    destruct (index_in_range steps
                (Z.min (Z.min (stepIndex (saved st) + 1) (len steps - 1))
                       (len steps - 1))) as [next [N _]]; [lia|].
    rewrite N in E. discriminate E.
Qed.

(** The first code word of the hunt, typed as it is. *)
Lemma submit_advances_iff_correct_witness :
  exists st' effects,
    onSubmit DEFAULT_STEPS firstAnswerTyped 0 = Some (st', effects)
    /\ saved st' = saved firstAnswerTyped
    /\ ((exists n d, In (SetTimeout (AdvanceStep n) d) effects) <->
        (stepIndex (saved firstAnswerTyped) < len DEFAULT_STEPS - 1)%Z
        /\ normalize (JString (answerInput firstAnswerTyped))
           = normalize (JString (answer (stepAt 0))))
    /\ (forall n d, In (SetTimeout (AdvanceStep n) d) effects ->
          n = (stepIndex (saved firstAnswerTyped) + 1)%Z /\ d = 3800%Z).
Proof.
  apply (submit_advances_iff_correct DEFAULT_STEPS firstAnswerTyped 0%Q (stepAt 0)).
  reflexivity.
Defined.

(** ** Runs of the component *)

Lemma after_fields (w : World) (st : State) (effects : list Effect) :
  ui (after w (st, effects)) = st
  /\ now (after w (st, effects)) = now w
  /\ timers (after w (st, effects))
     = fst (perform (now w) effects (timers w) (spoken w))
  /\ spoken (after w (st, effects))
     = snd (perform (now w) effects (timers w) (spoken w)).
Proof.
  unfold after. simpl.
  destruct (perform (now w) effects (timers w) (spoken w)). repeat split.
Qed.

Lemma perform_speech (t : Z) (speech : list Effect) (ts : list Timer)
    (sp : list (option string)) :
  Forall isSpeak speech -> fst (perform t speech ts sp) = ts.
Proof.
  intro H. revert sp. induction H as [|e rest He Hrest IH]; intro sp; simpl.
  - reflexivity.
  - destruct He as [text [p [q ->]]]. apply IH.
Qed.

Lemma perform_app (t : Z) (a b : list Effect) (ts : list Timer)
    (sp : list (option string)) :
  perform t (a ++ b) ts sp
  = perform t b (fst (perform t a ts sp)) (snd (perform t a ts sp)).
Proof.
  revert ts sp. induction a as [|e a IH]; intros ts sp; simpl.
  - reflexivity.
  - destruct e; apply IH.
Qed.

(** What one event does, by event. *)
Lemma handle_cases (steps : list Step) (w w' : World) (e : Event) :
  handle steps w e = Some w' ->
  exists step,
    currentStep steps (saved (ui w)) = Some step
    /\ match e with
       | Typed text => w' = after w (setAnswerInput (ui w) text, [])
       | Submit r =>
           exists st' effects,
             onSubmit steps (ui w) r = Some (st', effects)
             /\ w' = after w (st', effects)
       | Whisper r => w' = after w (ui w, whisper step (saved (ui w)) r)
       | UnlockAudio => w' = after w (onUnlockAudio (ui w))
       | ResetHunt confirm => w' = after w (reset (ui w) confirm, [])
       | JumpTo idx => w' = after w (jumpTo steps (ui w) idx, [])
       | CloseMap => w' = after w (setMapOpen (ui w) false, [])
       | Elapse ms =>
           w' = {| ui := fst (fire (now w + ms) (timers w) (ui w));
                   now := (now w + ms)%Z;
                   timers := snd (fire (now w + ms) (timers w) (ui w));
                   spoken := spoken w |}
       end.
Proof.
  unfold handle.
  destruct (currentStep steps (saved (ui w))) as [step|]; [|discriminate].
  intro H. exists step. split; [reflexivity|].
  destruct e; try (injection H as <-; reflexivity).
  - destruct (onSubmit steps (ui w) r) as [[st' effects]|]; [|discriminate H].
    injection H as <-. exists st', effects. split; reflexivity.
  - destruct (fire (now w + ms) (timers w) (ui w)).
    injection H as <-. reflexivity.
Qed.

(** An invariant of the single events is an invariant of the runs. *)
Lemma run_invariant (steps : list Step) (P : World -> Prop) (ok : Event -> Prop) :
  (forall w e w', P w -> ok e -> handle steps w e = Some w' -> P w') ->
  forall es w w', P w -> Forall ok es -> run steps w es = Some w' -> P w'.
Proof.
  intro Step. induction es as [|e es IH]; intros w w' Pw Hok H; simpl in H.
  - injection H as <-. exact Pw.
  - destruct (handle steps w e) as [w1|] eqn:E; [|discriminate H].
    inversion Hok as [|? ? Oe Oes]; subst.
    apply (IH w1 w'); [|exact Oes|exact H].
    exact (Step w e w1 Pw Oe E).
Qed.

Lemma fire_unlockedAudio (t : Z) (ts : list Timer) (st : State) :
  unlockedAudio (saved (fst (fire t ts st))) = unlockedAudio (saved st).
Proof.
  revert st. induction ts as [|u rest IH]; intro st; simpl; [reflexivity|].
  destruct (due u <=? t)%Z; [|reflexivity].
  rewrite IH. destruct (callback u); reflexivity.
Qed.

Lemma handle_unlockedAudio (steps : list Step) (w w' : World) (e : Event) :
  handle steps w e = Some w' ->
  unlockedAudio (saved (ui w'))
  = match e with
    | UnlockAudio => true
    | _ => unlockedAudio (saved (ui w))
    end.
Proof.
  intro H. destruct (handle_cases steps w w' e H) as [step [_ C]].
  destruct e.
  - subst w'. reflexivity.
  - destruct C as [st' [effects [S ->]]].
    destruct (after_fields w st' effects) as [-> _].
    destruct (onSubmit_shape steps _ _ _ _ S) as [-> _]. reflexivity.
  - subst w'. destruct (after_fields w (ui w) (whisper step (saved (ui w)) r))
      as [-> _]. reflexivity.
  - subst w'. reflexivity.
  - subst w'. destruct confirm as [[|]|]; reflexivity.
  - subst w'. reflexivity.
  - subst w'. reflexivity.
  - subst w'. simpl. apply fire_unlockedAudio.
Qed.

(** X12. Unlocking the audio is one-way: once the flag is set, no event, the
    reset and the jump included, clears it again. *)
Theorem unlockedAudio_stays (steps : list Step) (es : list Event) (w w' : World) :
  unlockedAudio (saved (ui w)) = true ->
  run steps w es = Some w' ->
  unlockedAudio (saved (ui w')) = true.
Proof.
  intros U H.
  apply (run_invariant steps (fun v => unlockedAudio (saved (ui v)) = true)
           (fun _ => True)) with (es := es) (w := w); try assumption.
  - intros v e v' Pv _ E. rewrite (handle_unlockedAudio steps v v' e E).
    destruct e; first [reflexivity | exact Pv].
  - apply Forall_forall. intros. exact I.
Qed.

(** With the audio unlocked the hunt is played to its second step, reset
    and jumped: the flag is still set. *)
Lemma unlockedAudio_stays_witness :
  exists w',
    run DEFAULT_STEPS (mount {| stepIndex := 0; unlockedAudio := true |})
      [Typed (str "crossroads"); Submit 0; Elapse 3800;
       ResetHunt (Some true); JumpTo 7] = Some w'
    /\ unlockedAudio (saved (ui w')) = true.
Proof.
  eexists. split; [vm_compute; reflexivity|].
  eapply (unlockedAudio_stays DEFAULT_STEPS
            [Typed (str "crossroads"); Submit 0; Elapse 3800;
             ResetHunt (Some true); JumpTo 7]
            (mount {| stepIndex := 0; unlockedAudio := true |})).
  - reflexivity.
  - vm_compute. reflexivity.
Defined.

Lemma handle_spoken_locked (steps : list Step) (w w' : World) (e : Event) :
  unlockedAudio (saved (ui w)) = false -> e <> UnlockAudio ->
  handle steps w e = Some w' -> spoken w' = spoken w.
Proof.
  intros L Ne H. destruct (handle_cases steps w w' e H) as [step [_ C]].
  destruct e; try (subst w'; reflexivity).
  - destruct C as [st' [effects [S ->]]].
    destruct (after_fields w st' effects) as [_ [_ [_ ->]]].
    destruct (onSubmit_shape steps _ _ _ _ S)
      as [_ [step' [speech [_ [_ [Q Cases]]]]]].
    rewrite (Q L) in Cases.
    destruct Cases as [[_ [_ ->]]|[[_ [_ [_ ->]]]|[_ [_ [_ ->]]]]]; reflexivity.
  - subst w'. destruct (after_fields w (ui w) (whisper step (saved (ui w)) r))
      as [_ [_ [_ ->]]].
    destruct (whisper_speech step (saved (ui w)) r) as [_ Q].
    rewrite (Q L). reflexivity.
  - congruence.
Qed.

(** X13. While the audio is locked nothing is handed to [speak]: along any run
    without the unlocking tap, over right and wrong answers, whispers,
    resets and jumps, the list of spoken lines stays as it was, and the
    audio stays locked. *)
Theorem locked_audio_is_silent (steps : list Step) (es : list Event)
    (w w' : World) :
  unlockedAudio (saved (ui w)) = false ->
  Forall (fun e => e <> UnlockAudio) es ->
  run steps w es = Some w' ->
  spoken w' = spoken w /\ unlockedAudio (saved (ui w')) = false.
Proof.
  intros L Hes H.
  apply (run_invariant steps
           (fun v => spoken v = spoken w /\ unlockedAudio (saved (ui v)) = false)
           (fun e => e <> UnlockAudio)) with (es := es) (w := w);
    try assumption; [|split; [reflexivity|exact L]].
  intros v e v' [Sv Lv] Ne E. split.
  - rewrite (handle_spoken_locked steps v v' e Lv Ne E). exact Sv.
  - rewrite (handle_unlockedAudio steps v v' e E).
    destruct e; first [exact Lv | congruence].
Qed.

(** A wrong answer, a right one and a whisper with the audio locked. *)
Lemma locked_audio_is_silent_witness :
  exists w',
    run DEFAULT_STEPS (mount defaultSaved)
      [Typed (str "nope"); Submit 0; Typed (str "crossroads"); Submit 0;
       Whisper (1 # 2); Elapse 3800] = Some w'
    /\ spoken w' = [] /\ unlockedAudio (saved (ui w')) = false.
Proof.
  eexists. split; [vm_compute; reflexivity|].
  eapply (locked_audio_is_silent DEFAULT_STEPS
            [Typed (str "nope"); Submit 0; Typed (str "crossroads"); Submit 0;
             Whisper (1 # 2); Elapse 3800]
            (mount defaultSaved)).
  - reflexivity.
  - repeat constructor; discriminate.
  - vm_compute. reflexivity.
Defined.

Lemma fire_bounded (hi : Z) (t : Z) (ts : list Timer) (st : State) :
  (stepIndex (saved st) <= hi)%Z -> advancesUpTo hi ts ->
  (stepIndex (saved (fst (fire t ts st))) <= hi)%Z
  /\ advancesUpTo hi (snd (fire t ts st)).
Proof.
  intros Hst Hts. revert st Hst.
  induction Hts as [|u rest Hu Hrest IH]; intros st Hst; simpl.
  - split; [exact Hst|constructor].
  - destruct (due u <=? t)%Z.
    + apply IH. destruct (callback u); simpl; assumption.
    + split; [exact Hst|]. constructor; assumption.
Qed.

Lemma fire_rest_Forall (P : Timer -> Prop) (t : Z) (ts : list Timer) (st : State) :
  Forall P ts -> Forall P (snd (fire t ts st)).
Proof.
  intro H. revert st. induction H as [|u rest Hu Hrest IH]; intro st; simpl.
  - constructor.
  - destruct (due u <=? t)%Z; [apply IH|constructor; assumption].
Qed.

Lemma submit_timers (steps : list Step) (w : World) (st' : State) (r : Q)
    (effects : list Effect) :
  onSubmit steps (ui w) r = Some (st', effects) ->
  timers (after w (st', effects)) = timers w
  \/ (isLast steps (saved (ui w)) = false
      /\ timers (after w (st', effects))
         = insertTimer
             {| due := now w + 3800;
                callback := AdvanceStep (Z.min (progress w + 1) (len steps - 1)) |}
             (timers w))
  \/ timers (after w (st', effects))
     = insertTimer {| due := now w + 450; callback := StopShake |} (timers w).
Proof.
  intro S. destruct (after_fields w st' effects) as [_ [_ [-> _]]].
  destruct (onSubmit_shape steps _ _ _ _ S)
    as [_ [step [speech [_ [Sp [_ Cases]]]]]].
  destruct Cases as [[_ [_ ->]]|[[L [_ [_ ->]]]|[_ [_ [_ ->]]]]].
  - left. apply perform_speech, Sp.
  - right. left. split; [exact L|].
    rewrite perform_app. simpl. rewrite (perform_speech _ _ _ _ Sp). reflexivity.
  - right. right. simpl. apply perform_speech, Sp.
Qed.

Lemma handle_bounded (steps : list Step) (hi : Z) (w w' : World) (e : Event) :
  steps <> [] -> (len steps - 1 <= hi)%Z ->
  (progress w <= hi)%Z /\ advancesUpTo (len steps - 1) (timers w) ->
  handle steps w e = Some w' ->
  (progress w' <= hi)%Z /\ advancesUpTo (len steps - 1) (timers w').
Proof.
  intros Hne Hhi [Hp Ht] H.
  assert (Hlen : (0 < len steps)%Z).
  { unfold len. destruct steps; [congruence|simpl; lia]. }
  destruct (handle_cases steps w w' e H) as [step [_ C]].
  unfold progress in *. destruct e.
  - subst w'. split; assumption.
  - destruct C as [st' [effects [S ->]]].
    pose proof (submit_timers steps w st' r effects S) as T.
    destruct (after_fields w st' effects) as [-> _].
    destruct (onSubmit_shape steps _ _ _ _ S) as [-> _].
    split; [exact Hp|].
    destruct T as [->|[[_ ->]| ->]]; [exact Ht| |];
      apply insertTimer_Forall; try exact Ht; simpl; [lia|exact I].
  - subst w'. destruct (after_fields w (ui w) (whisper step (saved (ui w)) r))
      as [-> [_ [-> _]]].
    rewrite (perform_speech _ _ _ _ (proj1 (whisper_speech step _ r))).
    split; assumption.
  - subst w'. split; assumption.
  - subst w'. split; [|exact Ht].
    destruct confirm as [[|]|]; simpl; lia.
  - subst w'. split; [|exact Ht]. simpl. lia.
  - subst w'. split; assumption.
  - subst w'. simpl.
    assert (Ht' : advancesUpTo hi (timers w)).
    { eapply Forall_impl; [|exact Ht].
      intros u Hu. cbv beta in Hu. destruct (callback u); [lia|exact I]. }
    split.
    + apply (fire_bounded hi); assumption.
    + apply fire_rest_Forall, Ht.
Qed.

(** X14. The step index stays in range. From a stored index that is not
    negative, no sequence of events, stale timers included, leads below 0
    or above the larger of that index and the last index of the hunt: an
    index in range stays in range, and a stale one beyond the end never
    grows. *)
Theorem progress_stays_in_range (steps : list Step) (sv : Saved)
    (es : list Event) (w' : World) :
  steps <> [] -> (0 <= stepIndex sv)%Z ->
  run steps (mount sv) es = Some w' ->
  (0 <= progress w' <= Z.max (stepIndex sv) (len steps - 1))%Z.
Proof.
  intros Hne Hlo H. split.
  - apply (run_progress_nonnegative steps es Hne (mount sv) w');
      [exact Hlo|constructor|exact H].
  - apply (run_invariant steps
             (fun v => (progress v <= Z.max (stepIndex sv) (len steps - 1))%Z
                       /\ advancesUpTo (len steps - 1) (timers v))
             (fun _ => True)) with (es := es) (w := mount sv) (w' := w').
    + intros v e v' Pv _ E.
      apply (handle_bounded steps _ v v' e Hne); [lia|exact Pv|exact E].
    + split; [unfold progress; simpl; lia|constructor].
    + apply Forall_forall. intros. exact I.
    + exact H.
Qed.

(** A reset during a reveal, a jump beyond the end, and the stale timer. *)
Lemma progress_stays_in_range_witness :
  exists w',
    run DEFAULT_STEPS (mount defaultSaved)
      [Typed (str "crossroads"); Submit 0; ResetHunt (Some true); JumpTo 99;
       Elapse 5000] = Some w'
    /\ (0 <= progress w' <= Z.max 0 (len DEFAULT_STEPS - 1))%Z.
Proof.
  eexists. split; [vm_compute; reflexivity|].
  eapply (progress_stays_in_range DEFAULT_STEPS defaultSaved
            [Typed (str "crossroads"); Submit 0; ResetHunt (Some true);
             JumpTo 99; Elapse 5000]).
  - discriminate.
  - simpl. lia.
  - vm_compute. reflexivity.
Defined.

(** ** Normal play *)

Lemma queued_weaken (t t' lo lo' hi hi' : Z) (ts : list Timer) :
  (t <= t')%Z -> (lo' <= lo)%Z -> (hi <= hi')%Z ->
  queued t lo hi ts -> queued t' lo' hi' ts.
Proof.
  intros Ht Hlo Hhi. revert lo lo' Hlo.
  induction ts as [|u rest IH]; intros lo lo' Hlo H; simpl in *; [exact I|].
  destruct H as [S H]. split; [exact S|].
  destruct (callback u) as [n|].
  - destruct H as [D [B Q]]. split; [lia|]. split; [lia|].
    apply (IH n n); [lia|exact Q].
  - apply (IH lo lo'); assumption.
Qed.

(** Timers due later than 3.8 seconds from now are no step advances. *)
Lemma queued_late (t lo hi lo' hi' : Z) (ts : list Timer) :
  Forall (fun v => (t + 3800 < due v)%Z) ts ->
  queued t lo hi ts -> queued t lo' hi' ts.
Proof.
  induction 1 as [|u rest Hu Hrest IH]; simpl; [trivial|].
  intros [S H]. split; [exact S|].
  destruct (callback u) as [n|]; [lia|]. apply IH, H.
Qed.

Lemma queued_sorted (t lo hi : Z) (u : Timer) (rest : list Timer) :
  queued t lo hi (u :: rest) -> Forall (fun v => (due u <= due v)%Z) rest.
Proof. intros [S _]. exact S. Qed.

Lemma queued_insert_shake (t lo hi d : Z) (ts : list Timer) :
  queued t lo hi ts ->
  queued t lo hi (insertTimer {| due := d; callback := StopShake |} ts).
Proof.
  revert lo. induction ts as [|u rest IH]; intros lo H; simpl.
  - split; [constructor|exact I].
  - destruct (Z.ltb_spec d (due u)) as [L|L].
    + simpl. split; [|exact H].
      constructor; [lia|].
      eapply Forall_impl; [|exact (queued_sorted _ _ _ _ _ H)].
      intros v Hv. cbv beta in Hv. simpl. lia.
    + destruct H as [S H]. split.
      * apply insertTimer_Forall; [simpl; lia|exact S].
      * destruct (callback u) as [n|].
        -- destruct H as [D [B Q]].
           split; [exact D|split; [exact B|apply IH, Q]].
        -- apply IH, H.
Qed.

Lemma queued_insert_advance (t lo hi : Z) (ts : list Timer) :
  (lo <= hi)%Z -> queued t lo hi ts ->
  queued t lo hi
    (insertTimer {| due := t + 3800; callback := AdvanceStep hi |} ts).
Proof.
  revert lo. induction ts as [|u rest IH]; intros lo B H; simpl.
  - split; [constructor|]. split; [lia|]. split; [lia|exact I].
  - destruct (Z.ltb_spec (t + 3800) (due u)) as [L|L].
    + pose proof (queued_sorted _ _ _ _ _ H) as S.
      simpl. split.
      * constructor; [lia|].
        eapply Forall_impl; [|exact S]. intros v Hv. cbv beta in Hv. simpl. lia.
      * split; [lia|]. split; [lia|].
        assert (F : Forall (fun v => (t + 3800 < due v)%Z) (u :: rest)).
        { constructor; [exact L|].
          eapply Forall_impl; [|exact S]. intros v Hv. cbv beta in Hv. lia. }
        exact (queued_late t lo hi hi hi (u :: rest) F H).
    + destruct H as [S H]. split.
      * apply insertTimer_Forall; [simpl; lia|exact S].
      * destruct (callback u) as [n|].
        -- destruct H as [D [Bn Q]].
           split; [exact D|split; [exact Bn|apply IH; [lia|exact Q]]].
        -- apply IH; assumption.
Qed.

Lemma fire_queued (t0 t hi : Z) (ts : list Timer) (st : State) :
  queued t0 (stepIndex (saved st)) hi ts ->
  (stepIndex (saved st) <= stepIndex (saved (fst (fire t ts st))))%Z
  /\ queued t0 (stepIndex (saved (fst (fire t ts st)))) hi (snd (fire t ts st)).
Proof.
  revert st. induction ts as [|u rest IH]; intros st H; simpl.
  - split; [lia|exact I].
  - destruct (due u <=? t)%Z; [|split; [simpl; lia|exact H]].
    destruct H as [_ H]. destruct (callback u) as [n|] eqn:C.
    + destruct H as [_ [B Q]].
      destruct (IH (runCallback st (AdvanceStep n))) as [M Q']; [exact Q|].
      change (stepIndex (saved (runCallback st (AdvanceStep n)))) with n in M.
      split; [lia|exact Q'].
    + apply (IH (runCallback st StopShake)). exact H.
Qed.

Lemma handle_orderly (steps : list Step) (w w' : World) (e : Event) :
  orderly w -> playEvent e -> handle steps w e = Some w' ->
  orderly w' /\ (progress w <= progress w')%Z.
Proof.
  unfold orderly, progress. intros O Pe H.
  destruct (handle_cases steps w w' e H) as [step [_ C]].
  destruct e; simpl in Pe; try contradiction.
  - subst w'. split; [exact O|simpl; lia].
  - destruct C as [st' [effects [S ->]]].
    pose proof (submit_timers steps w st' r effects S) as T.
    destruct (after_fields w st' effects) as [-> [-> _]].
    destruct (onSubmit_shape steps _ _ _ _ S) as [-> _].
    split; [|lia].
    destruct T as [->|[[L ->]| ->]]; [exact O| |].
    + unfold isLast in L. apply Z.leb_gt in L.
      unfold progress. rewrite Z.min_l by lia.
      apply queued_insert_advance; [lia|exact O].
    + apply queued_insert_shake, O.
  - subst w'. destruct (after_fields w (ui w) (whisper step (saved (ui w)) r))
      as [-> [-> [-> _]]].
    rewrite (perform_speech _ _ _ _ (proj1 (whisper_speech step _ r))).
    split; [exact O|lia].
  - subst w'. split; [exact O|simpl; lia].
  - subst w'. split; [exact O|simpl; lia].
  - subst w'. simpl in *.
    destruct (fire_queued (now w) (now w + ms) (stepIndex (saved (ui w)) + 1)
                (timers w) (ui w) O) as [M Q].
    split; [|exact M].
    apply (queued_weaken (now w) _ _ _ _ _ _) with (4 := Q); lia.
Qed.

(** X15. In normal play the step index never goes back. Along any run without
    reset and jump, with time running forward, whatever is typed and
    however often it is submitted, also again during a reveal, the step
    index after more events is at least what it was before. *)
Theorem progress_never_decreases_in_play (steps : list Step) (sv : Saved)
    (es1 es2 : list Event) (w1 w2 : World) :
  Forall playEvent es1 -> Forall playEvent es2 ->
  run steps (mount sv) es1 = Some w1 ->
  run steps w1 es2 = Some w2 ->
  (stepIndex sv <= progress w1 <= progress w2)%Z.
Proof.
  intros P1 P2 R1 R2.
  assert (G : forall es w w',
             Forall playEvent es -> orderly w -> run steps w es = Some w' ->
             orderly w' /\ (progress w <= progress w')%Z).
  { induction es as [|e es IH]; intros w w' Pes O R; simpl in R.
    - injection R as <-. split; [exact O|lia].
    - destruct (handle steps w e) as [v|] eqn:E; [|discriminate R].
      inversion Pes as [|? ? Pe Pes']; subst.
      destruct (handle_orderly steps w v e O Pe E) as [Ov Mv].
      destruct (IH v w' Pes' Ov R) as [Ow Mw]. split; [exact Ow|lia]. }
  assert (O0 : orderly (mount sv)) by exact I.
  destruct (G es1 (mount sv) w1 P1 O0 R1) as [O1 M1].
  destruct (G es2 w1 w2 P2 O1 R2) as [_ M2].
  unfold progress in M1 at 1. simpl in M1. lia.
Qed.

(** The first code word submitted twice during one reveal, then the
    second code word: the index goes 0, 1, 2. *)
Lemma progress_never_decreases_in_play_witness :
  exists w1 w2,
    run DEFAULT_STEPS (mount defaultSaved)
      [Typed (str "crossroads"); Submit 0; Elapse 2000;
       Typed (str "crossroads"); Submit 0; Elapse 1800] = Some w1
    /\ run DEFAULT_STEPS w1
         [Typed (str "shared dreams"); Submit 0; Elapse 2000; Elapse 1800]
       = Some w2
    /\ (0 <= progress w1 <= progress w2)%Z.
Proof.
  eexists. eexists. split; [vm_compute; reflexivity|].
  split; [vm_compute; reflexivity|].
  eapply (progress_never_decreases_in_play DEFAULT_STEPS defaultSaved
            [Typed (str "crossroads"); Submit 0; Elapse 2000;
             Typed (str "crossroads"); Submit 0; Elapse 1800]
            [Typed (str "shared dreams"); Submit 0; Elapse 2000; Elapse 1800]).
  - repeat constructor; simpl; lia.
  - repeat constructor; simpl; lia.
  - vm_compute. reflexivity.
  - vm_compute. reflexivity.
Defined.

(** ** Timing *)

Lemma submit_world (steps : list Step) (w : World) (r : Q) :
  timers w = [] ->
  forall st' effects,
    onSubmit steps (ui w) r = Some (st', effects) ->
    handle steps w (Submit r) = Some (after w (st', effects))
    /\ ui (after w (st', effects)) = st'
    /\ now (after w (st', effects)) = now w
    /\ saved st' = saved (ui w).
Proof.
  intros _ st' effects S. unfold handle.
  destruct (onSubmit_shape steps _ _ _ _ S) as [Sv [step [_ [C _]]]].
  rewrite C, S. simpl option_map.
  destruct (after_fields w st' effects) as [U [N _]].
  repeat split; assumption.
Qed.

(** X16. The reveal lasts 3.8 seconds. With no timer pending, a right answer at
    a step that is not the last opens the overlay and clears the input at
    once and leaves the step index as it is; when time then passes, the
    index is still the old one before 3800 ms and the next one from
    3800 ms on. *)
Theorem right_answer_advances_after_3800 (steps : list Step) (w : World)
    (r : Q) (step : Step) :
  timers w = [] ->
  currentStep steps (saved (ui w)) = Some step ->
  (progress w < len steps - 1)%Z ->
  normalize (JString (answerInput (ui w))) = normalize (JString (answer step)) ->
  exists w1,
    handle steps w (Submit r) = Some w1
    /\ progress w1 = progress w
    /\ mapOpen (ui w1) = true
    /\ answerInput (ui w1) = []
    /\ forall ms,
         exists w2,
           handle steps w1 (Elapse ms) = Some w2
           /\ progress w2
              = (if (ms <? 3800)%Z then progress w else progress w + 1)%Z.
Proof.
  intros T C L A. unfold progress in *.
  destruct (submit_advances_iff_correct_aux steps (ui w) r step C)
    as [st' [effects S]].
  destruct (submit_world steps w r T st' effects S) as [H [U [N Sv]]].
  exists (after w (st', effects)). split; [exact H|].
  rewrite U, Sv. split; [reflexivity|].
  destruct (onSubmit_shape steps _ _ _ _ S)
    as [_ [step' [speech [C' [Sp [_ Cases]]]]]].
  rewrite C in C'. injection C' as <-.
  unfold isLast in Cases.
  destruct Cases as [[X _]|[[_ [_ [M E]]]|[_ [X _]]]];
    [apply Z.leb_le in X; lia| |contradiction].
  split; [exact M|]. split.
  - unfold onSubmit in S. rewrite C in S. unfold isLast in S.
    destruct (Z.leb_spec (len steps - 1) (stepIndex (saved (ui w)))); [lia|].
    cbv zeta in S. apply jsstring_eqb_eq in A. rewrite A in S.
    unfold showMapForNextStep in S.
    destruct (index steps _); [|discriminate S]. injection S as <- _. reflexivity.
  - intro ms. unfold handle. rewrite U, Sv, C.
    destruct (after_fields w st' effects) as [_ [-> [-> _]]].
    rewrite E, perform_app, (perform_speech _ _ _ _ Sp), T. simpl.
    rewrite Z.min_l by lia.
    destruct (Z.leb_spec (now w + 3800) (now w + ms));
      destruct (Z.ltb_spec ms 3800); try lia;
      eexists; (split; [reflexivity|]); simpl; rewrite ?Sv; reflexivity.
Qed.


(** The first answer of the hunt of the house. *)
Lemma right_answer_advances_after_3800_witness :
  exists w1,
    handle DEFAULT_STEPS
      {| ui := firstAnswerTyped; now := 0; timers := []; spoken := [] |}
      (Submit 0) = Some w1
    /\ progress w1 = 0%Z
    /\ mapOpen (ui w1) = true
    /\ answerInput (ui w1) = []
    /\ forall ms,
         exists w2,
           handle DEFAULT_STEPS w1 (Elapse ms) = Some w2
           /\ progress w2 = (if (ms <? 3800)%Z then 0 else 0 + 1)%Z.
Proof.
  apply (right_answer_advances_after_3800 DEFAULT_STEPS
           {| ui := firstAnswerTyped; now := 0; timers := []; spoken := [] |}
           0%Q (stepAt 0)).
  - reflexivity.
  - reflexivity.
  - vm_compute. reflexivity.
  - vm_compute. reflexivity.
Defined.

(** X17. The shake lasts 0.45 seconds. With no timer of a handler pending,
    a wrong answer at a step that is not the last sets the shake flag and
    changes no other cell of the state. As time passes, the flag is still
    set before 450 ms and cleared from 450 ms on, and the stored record,
    the typed text, the two toggles and the zone and visited list of the
    overlay stay as they were; with the overlay closed the whole state is
    as before but for the flag. Whether an open overlay is dismissed in
    the meantime is the matter of the overlay's own timer and is not
    stated. *)
Theorem wrong_answer_shakes_for_450 (steps : list Step) (w : World)
    (r : Q) (step : Step) :
  timers w = [] ->
  currentStep steps (saved (ui w)) = Some step ->
  (progress w < len steps - 1)%Z ->
  normalize (JString (answerInput (ui w))) <> normalize (JString (answer step)) ->
  exists w1,
    handle steps w (Submit r) = Some w1
    /\ ui w1 = setShake (ui w) true
    /\ forall ms,
         exists w2,
           handle steps w1 (Elapse ms) = Some w2
           /\ shake (ui w2) = (ms <? 450)%Z
           /\ saved (ui w2) = saved (ui w)
           /\ answerInput (ui w2) = answerInput (ui w)
           /\ showSettings (ui w2) = showSettings (ui w)
           /\ showHint (ui w2) = showHint (ui w)
           /\ mapZone (ui w2) = mapZone (ui w)
           /\ mapVisited (ui w2) = mapVisited (ui w)
           /\ (mapOpen (ui w) = false ->
               ui w2 = setShake (ui w) (ms <? 450)%Z).
Proof.
  intros T C L A. unfold progress in *.
  destruct (submit_advances_iff_correct_aux steps (ui w) r step C)
    as [st' [effects S]].
  destruct (submit_world steps w r T st' effects S) as [H [U [N Sv]]].
  exists (after w (st', effects)). split; [exact H|].
  destruct (onSubmit_shape steps _ _ _ _ S)
    as [_ [step' [speech [C' [Sp [_ Cases]]]]]].
  rewrite C in C'. injection C' as <-.
  unfold isLast in Cases.
  destruct Cases as [[X _]|[[_ [X _]]|[_ [_ [M E]]]]];
    [apply Z.leb_le in X; lia|contradiction|].
  rewrite U. split; [exact M|].
  intro ms. unfold handle. rewrite U, Sv, C.
  destruct (after_fields w st' effects) as [_ [-> [-> _]]].
  rewrite E. simpl perform. rewrite (perform_speech _ _ _ _ Sp), T. simpl.
  destruct (Z.leb_spec (now w + 450) (now w + ms));
    destruct (Z.ltb_spec ms 450); try lia;
    eexists; (split; [reflexivity|]); simpl; rewrite M;
    (split; [reflexivity|]); (split; [reflexivity|]); (split; [reflexivity|]);
    (split; [reflexivity|]); (split; [reflexivity|]); (split; [reflexivity|]);
    (split; [reflexivity|]); intros _; reflexivity.
Qed.

(** A wrong first answer on the hunt of the house. *)
Lemma wrong_answer_shakes_for_450_witness :
  exists w1,
    handle DEFAULT_STEPS (mount defaultSaved) (Submit 0) = Some w1
    /\ ui w1 = setShake (ui (mount defaultSaved)) true
    /\ forall ms,
         exists w2,
           handle DEFAULT_STEPS w1 (Elapse ms) = Some w2
           /\ shake (ui w2) = (ms <? 450)%Z
           /\ saved (ui w2) = saved (ui (mount defaultSaved))
           /\ answerInput (ui w2) = answerInput (ui (mount defaultSaved))
           /\ showSettings (ui w2) = showSettings (ui (mount defaultSaved))
           /\ showHint (ui w2) = showHint (ui (mount defaultSaved))
           /\ mapZone (ui w2) = mapZone (ui (mount defaultSaved))
           /\ mapVisited (ui w2) = mapVisited (ui (mount defaultSaved))
           /\ (mapOpen (ui (mount defaultSaved)) = false ->
               ui w2 = setShake (ui (mount defaultSaved)) (ms <? 450)%Z).
Proof.
  apply (wrong_answer_shakes_for_450 DEFAULT_STEPS (mount defaultSaved)
           0%Q (stepAt 0)).
  - reflexivity.
  - reflexivity.
  - vm_compute. reflexivity.
  - intro E. vm_compute in E. discriminate E.
Defined.

(** ** The component never fails *)

(** X18. From a stored index that is not negative every sequence of events is
    carried out: the current step stays defined, so the component always
    renders, and no handler throws. *)
Theorem run_never_fails (steps : list Step) (sv : Saved) (es : list Event) :
  steps <> [] -> (0 <= stepIndex sv)%Z ->
  exists w', run steps (mount sv) es = Some w'.
Proof.
  intros Hne Hlo.
  assert (G : forall es w,
             (0 <= progress w)%Z -> advancesFromZero (timers w) ->
             exists w', run steps w es = Some w').
  { clear es. induction es as [|e es IH]; intros w Hp Ht; simpl.
    - exists w. reflexivity.
    - assert (H : exists v, handle steps w e = Some v).
      { unfold handle.
        destruct (currentStep_defined steps Hne (saved (ui w)) Hp) as [step [C _]].
        rewrite C. destruct e; try (eexists; reflexivity).
        - destruct (submit_advances_iff_correct_aux steps (ui w) r step C)
            as [st' [effects ->]].
          eexists. reflexivity.
        - destruct (fire (now w + ms) (timers w) (ui w)). eexists. reflexivity. }
      destruct H as [v E]. rewrite E.
      destruct (run_progress_nonnegative steps [e] Hne w v Hp Ht) as [Hp' Ht'].
      { simpl. rewrite E. reflexivity. }
      apply IH; assumption. }
  apply G; [exact Hlo|constructor].
Qed.

(** A stale index far beyond the end, then a jump and a submission. *)
Lemma run_never_fails_witness :
  exists w',
    run DEFAULT_STEPS (mount {| stepIndex := 999; unlockedAudio := true |})
      [Submit (1 # 3); JumpTo (-4); Typed (str "crossroads"); Submit 0;
       Elapse 3800] = Some w'.
Proof.
  apply (run_never_fails DEFAULT_STEPS {| stepIndex := 999; unlockedAudio := true |}).
  - discriminate.
  - simpl. lia.
Defined.

(** ** Visited zones *)

Lemma firstn_prefix {A : Type} (l : list A) (m m' : nat) :
  (m <= m')%nat -> exists t, firstn m' l = (firstn m l ++ t)%list.
Proof.
  revert m m'. induction l as [|a l IH]; intros m m' H.
  - exists []. rewrite !firstn_nil. reflexivity.
  - destruct m as [|m].
    + exists (firstn m' (a :: l)). reflexivity.
    + destruct m' as [|m']; [lia|].
      destruct (IH m m') as [t E]; [lia|].
      exists t. simpl. rewrite E. reflexivity.
Qed.

Lemma slice0_firstn {A : Type} (xs : list A) (e : Z) :
  (0 <= e)%Z -> slice0 xs e = firstn (Z.to_nat e) xs.
Proof.
  intro H. unfold slice0, len.
  destruct (Z.ltb_spec e 0); [lia|].
  destruct (Z.le_ge_cases e (Z.of_nat (List.length xs))) as [L|L].
  - rewrite Z.min_l by lia. reflexivity.
  - rewrite Z.min_r by lia. rewrite Nat2Z.id, firstn_all.
    symmetry. apply firstn_all2. lia.
Qed.

(** X19. The visited list only grows with the index: for every index from 0
    upward the list for the next index starts with the list for this one.
    It never holds an empty id, and from the length of the hunt on it is
    the list of the zones of all steps. *)
Theorem visitedZones_grow (steps : list Step) (n : Z) :
  (0 <= n)%Z ->
  (exists l, visitedZones steps (n + 1) = (visitedZones steps n ++ l)%list)
  /\ Forall (fun z => z <> "") (visitedZones steps n)
  /\ ((len steps <= n)%Z ->
      visitedZones steps n = filter truthy (List.map zone steps)).
Proof.
  intro H. unfold visitedZones.
  rewrite !slice0_firstn by (unfold len; lia).
  split; [|split].
  - destruct (firstn_prefix steps (Z.to_nat (Z.min n (len steps)))
                (Z.to_nat (Z.min (n + 1) (len steps)))) as [t E]; [lia|].
    rewrite E, map_app, filter_app. eexists. reflexivity.
  - apply Forall_forall. intros z Hz. apply filter_In in Hz.
    apply truthy_true, Hz.
  - intro L. rewrite Z.min_r by lia. unfold len. rewrite Nat2Z.id, firstn_all.
    reflexivity.
Qed.

(** The visited lists of the reveals after the fifth and the sixth answer
    of the hunt of the house. *)
Lemma visitedZones_grow_witness :
  (exists l, visitedZones DEFAULT_STEPS (5 + 1)
             = (visitedZones DEFAULT_STEPS 5 ++ l)%list)
  /\ Forall (fun z => z <> "") (visitedZones DEFAULT_STEPS 5)
  /\ ((len DEFAULT_STEPS <= 5)%Z ->
      visitedZones DEFAULT_STEPS 5 = filter truthy (List.map zone DEFAULT_STEPS)).
Proof.
  apply (visitedZones_grow DEFAULT_STEPS 5). lia.
Defined.

(** ** The map overlay *)

Lemma isZone_true (id : string) (currentZone : option string) :
  Overlay.isZone id currentZone = true <-> Some id = currentZone.
Proof.
  destruct currentZone as [z|]; simpl.
  - rewrite String.eqb_eq. split; congruence.
  - split; discriminate.
Qed.

Lemma mounted_views (st : State) (views : list Overlay.ZoneView) (hint : bool) :
  Overlay.mounted st = Some (views, hint) ->
  mapOpen st = true
  /\ hint = shedUnlocked (saved st) || Overlay.isZone "shed_final" (mapZone st)
  /\ views
     = List.map (fun z => Overlay.zoneView (mapZone st) (mapVisited st) hint (fst z))
         ZONES.
Proof.
  unfold Overlay.mounted, Overlay.render.
  destruct (mapOpen st); simpl; [|discriminate].
  intro H. injection H as <- <-. repeat split.
Qed.

(** X20. As the component mounts the overlay, the zone the reveal points at is
    never drawn as the locked shed: whatever the progress, its rectangle
    has the class, the glow and the red fill and stroke of the current
    zone, and no lock cross. *)
Theorem overlay_current_zone_unlocked (st : State)
    (views : list Overlay.ZoneView) (hint : bool) (v : Overlay.ZoneView) :
  Overlay.mounted st = Some (views, hint) ->
  In v views ->
  mapZone st = Some (Overlay.zoneId v) ->
  Overlay.cls v = "zone zone-current"
  /\ Overlay.glow v = true
  /\ Overlay.fill v = "rgba(220,38,38,0.28)"
  /\ Overlay.stroke v = "rgba(220,38,38,0.65)"
  /\ Overlay.lockCross v = false.
Proof.
  intros M Hv Z0. destruct (mounted_views st views hint M) as [_ [Hh ->]].
  apply in_map_iff in Hv. destruct Hv as [[z rect] [<- _]].
  simpl in Z0. simpl fst.
  assert (C : Overlay.isZone z (mapZone st) = true).
  { rewrite Z0. simpl. apply String.eqb_refl. }
  assert (L : (z =? "shed_final") && negb hint = false).
  { destruct (String.eqb_spec z "shed_final") as [->|]; [|reflexivity].
    rewrite Hh, Z0. simpl. rewrite orb_true_r. reflexivity. }
  unfold Overlay.zoneView, Overlay.zoneFill, Overlay.zoneStroke. simpl.
  rewrite C, L. repeat split.
Qed.

(** The overlay of the reveal towards the shed, two steps before the end. *)
Lemma overlay_current_zone_unlocked_witness :
  exists views hint v,
    Overlay.mounted
      (setMapOpen
         (setMapZone (initialState {| stepIndex := 3; unlockedAudio := false |})
            (Some "shed_final")) true) = Some (views, hint)
    /\ In v views
    /\ Overlay.zoneId v = "shed_final"
    /\ Overlay.cls v = "zone zone-current"
    /\ Overlay.glow v = true
    /\ Overlay.fill v = "rgba(220,38,38,0.28)"
    /\ Overlay.stroke v = "rgba(220,38,38,0.65)"
    /\ Overlay.lockCross v = false.
Proof.
  eexists. eexists.
  exists (Overlay.zoneView (Some "shed_final") [] true "shed_final").
  split; [vm_compute; reflexivity|].
  split; [vm_compute; tauto|]. split; [reflexivity|].
  eapply (overlay_current_zone_unlocked
            (setMapOpen
               (setMapZone (initialState {| stepIndex := 3; unlockedAudio := false |})
                  (Some "shed_final")) true)).
  - vm_compute. reflexivity.
  - vm_compute. tauto.
  - reflexivity.
Defined.

(** X21. What the overlay draws. Closed, it draws nothing. Open, it draws each
    zone of [ZONES] once, in the order of the table; the lock cross stands
    on the shed alone, and only while the step index is below 15 and the
    reveal does not point at the shed; a zone has the class of a visited
    one exactly when it is in the visited list and is not the current
    zone. *)
Theorem overlay_draws_every_zone (st : State) :
  (mapOpen st = false -> Overlay.mounted st = None)
  /\ (mapOpen st = true ->
      exists views hint,
        Overlay.mounted st = Some (views, hint)
        /\ List.map Overlay.zoneId views = List.map fst ZONES
        /\ forall v, In v views ->
             (Overlay.lockCross v = true <->
                Overlay.zoneId v = "shed_final"
                /\ (stepIndex (saved st) < 15)%Z
                /\ mapZone st <> Some "shed_final")
             /\ (Overlay.cls v = "zone zone-visited" <->
                   mapZone st <> Some (Overlay.zoneId v)
                   /\ In (Overlay.zoneId v) (mapVisited st))).
Proof.
  unfold Overlay.mounted, Overlay.render. split; intros ->; [reflexivity|].
  cbn [negb]. eexists. eexists. split; [reflexivity|]. split.
  - rewrite map_map. apply map_ext. intros z. reflexivity.
  - intros v Hv. apply in_map_iff in Hv. destruct Hv as [[z rect] [<- _]].
    unfold Overlay.zoneView.
    cbn [fst Overlay.lockCross Overlay.cls Overlay.zoneId].
    split.
    + rewrite andb_true_iff, negb_true_iff, orb_false_iff, String.eqb_eq.
      unfold shedUnlocked. rewrite Z.leb_gt.
      pose proof (isZone_true "shed_final" (mapZone st)) as Zt.
      destruct (Overlay.isZone "shed_final" (mapZone st)).
      * split; [intros [_ [_ X]]; discriminate X|].
        intros [_ [_ X]]. destruct X. symmetry. apply Zt. reflexivity.
      * split; intros [A [B _]]; repeat split; try assumption.
        intro X. symmetry in X. apply Zt in X. discriminate X.
    + pose proof (isZone_true z (mapZone st)) as Zt.
      assert (Hhas : Overlay.has (mapVisited st) z = true <-> In z (mapVisited st)).
      { unfold Overlay.has. rewrite existsb_exists. split.
        - intros [y [Hy E]]. apply String.eqb_eq in E. subst y. exact Hy.
        - intro Hin. exists z. split; [exact Hin|apply String.eqb_refl]. }
      destruct (Overlay.isZone z (mapZone st)).
      * split; [discriminate|]. intros [X _]. destruct X. symmetry.
        apply Zt. reflexivity.
      * assert (Nz : mapZone st <> Some z).
        { intro X. symmetry in X. apply Zt in X. discriminate X. }
        destruct (Overlay.has (mapVisited st) z).
        -- split; [|reflexivity]. intros _.
           split; [exact Nz|apply Hhas; reflexivity].
        -- split; [discriminate|]. intros [_ X].
           apply Hhas in X. discriminate X.
Qed.

(** ** The typewriter *)

Lemma tick_ticked (fullText : jsstring) (k : nat) :
  Typewriter.pending (ticked fullText k) = true ->
  Typewriter.tick fullText (ticked fullText k) = ticked fullText (S k).
Proof.
  intro P. unfold Typewriter.tick, ticked. simpl.
  rewrite slice0_firstn by lia.
  replace (Z.to_nat (Z.of_nat k + 1)) with (S k) by lia.
  replace (Z.of_nat k + 1)%Z with (Z.of_nat (S k)) by lia.
  f_equal. unfold len.
  destruct (Z.ltb_spec (Z.of_nat (S k)) (Z.of_nat (List.length fullText)));
    destruct (Nat.ltb_spec (S k) (List.length fullText)); try lia; reflexivity.
Qed.

Lemma ticks_ticked (fullText : jsstring) (n k : nat) :
  Typewriter.ticks fullText n (ticked fullText k)
  = ticked fullText
      (Nat.min (k + n) (Nat.max k (Nat.max 1 (List.length fullText)))).
Proof.
  revert k. induction n as [|n IH]; intro k.
  - cbn [Typewriter.ticks]. f_equal. lia.
  - cbn [Typewriter.ticks].
    destruct (Typewriter.pending (ticked fullText k)) eqn:P.
    + rewrite (tick_ticked fullText k P), IH. f_equal.
      unfold ticked in P. cbn [Typewriter.pending] in P.
      destruct (Nat.eqb_spec k 0); destruct (Nat.ltb_spec k (List.length fullText));
        try discriminate P; lia.
    + f_equal. unfold ticked in P. cbn [Typewriter.pending] in P.
      destruct (Nat.eqb_spec k 0); destruct (Nat.ltb_spec k (List.length fullText));
        try discriminate P; lia.
Qed.

(** X22. The typewriter shows one more code unit per tick: after [n] ticks the
    text shown is the first [n] code units of the full text (all of it
    once [n] reaches its length). A further tick is pending exactly
    before the first one and while text is left, so the effect stops by
    itself after as many ticks as the text is long, after one tick for
    the empty text. *)
Theorem typewriter_shows_prefix (fullText : jsstring) (n : nat) :
  Typewriter.shown (Typewriter.ticks fullText n Typewriter.start)
  = firstn n fullText
  /\ Typewriter.idx (Typewriter.ticks fullText n Typewriter.start)
     = Z.of_nat (Nat.min n (Nat.max 1 (List.length fullText)))
  /\ (Typewriter.pending (Typewriter.ticks fullText n Typewriter.start) = true
      <-> n = 0%nat \/ (n < List.length fullText)%nat).
Proof.
  change Typewriter.start with (ticked fullText 0).
  rewrite ticks_ticked. cbn [Nat.add]. rewrite Nat.max_0_l.
  unfold ticked.
  cbn [Typewriter.shown Typewriter.idx Typewriter.pending]. split; [|split].
  - destruct (Nat.le_gt_cases n (Nat.max 1 (List.length fullText))) as [L|L].
    + rewrite Nat.min_l by exact L. reflexivity.
    + rewrite Nat.min_r by lia. rewrite !firstn_all2 by lia. reflexivity.
  - reflexivity.
  - destruct (Nat.eqb_spec (Nat.min n (Nat.max 1 (List.length fullText))) 0);
      destruct (Nat.ltb_spec (Nat.min n (Nat.max 1 (List.length fullText)))
                  (List.length fullText));
      cbn [orb]; split; intro X; try discriminate X; try reflexivity; lia.
Qed.

(** X23. After the clean-up of the effect its pending tick does nothing: the
    counter and the text shown stay as they were, and no further tick is
    set. *)
Theorem typewriter_cancelled_is_inert (fullText : jsstring) (n : nat)
    (t : Typewriter.Run) :
  Typewriter.shown (Typewriter.ticks fullText n (Typewriter.cleanup t))
  = Typewriter.shown t
  /\ Typewriter.idx (Typewriter.ticks fullText n (Typewriter.cleanup t))
     = Typewriter.idx t
  /\ ((1 <= n)%nat ->
      Typewriter.pending (Typewriter.ticks fullText n (Typewriter.cleanup t))
      = false).
Proof.
  assert (G : forall m u,
             Typewriter.cancelled u = true ->
             Typewriter.shown (Typewriter.ticks fullText m u) = Typewriter.shown u
             /\ Typewriter.idx (Typewriter.ticks fullText m u) = Typewriter.idx u
             /\ ((1 <= m)%nat ->
                 Typewriter.pending (Typewriter.ticks fullText m u) = false)).
  { induction m as [|m IH]; intros u C; simpl.
    - split; [reflexivity|]. split; [reflexivity|]. lia.
    - destruct (Typewriter.pending u) eqn:P.
      + unfold Typewriter.tick. rewrite C.
        destruct (IH {| Typewriter.idx := Typewriter.idx u;
                        Typewriter.shown := Typewriter.shown u;
                        Typewriter.pending := false;
                        Typewriter.cancelled := true |} eq_refl) as [S [X _]].
        split; [exact S|]. split; [exact X|]. intros _.
        destruct m; reflexivity.
      + split; [reflexivity|]. split; [reflexivity|]. intros _. exact P. }
  apply (G n (Typewriter.cleanup t)). reflexivity.
Qed.

(** ** Stored state *)

(** X24. Stored state survives a reload, and a failed write loses nothing but
    the last change. Where [JSON.parse] inverts [JSON.stringify] on the
    state, a state persisted to working storage is the state the next
    mount starts from; with storage unavailable the next mount starts
    from the initial value; and a refused write leaves the next mount
    what it would have started from before. *)
Theorem stored_state_round_trip (A : Type) (parse : string -> option A)
    (stringify : A -> string) (state initialValue : A) :
  parse (stringify state) = Some state ->
  stringify state <> "" ->
  (forall entry,
     Storage.initialize A parse
       (Storage.getItem
          (Storage.persist A stringify (Storage.Holding entry) false state))
       initialValue = state)
  /\ Storage.initialize A parse
       (Storage.getItem
          (Storage.persist A stringify Storage.Unavailable false state))
       initialValue = initialValue
  /\ (forall s,
        Storage.initialize A parse
          (Storage.getItem (Storage.persist A stringify s true state))
          initialValue
        = Storage.initialize A parse (Storage.getItem s) initialValue).
Proof.
  intros P N. split; [|split].
  - intro entry. simpl. apply String.eqb_neq in N. rewrite N, P. reflexivity.
  - reflexivity.
  - intros [|entry]; reflexivity.
Qed.

(** The audio flag stored as JSON. *)
Lemma stored_state_round_trip_witness :
  (forall entry,
     Storage.initialize bool parseBool
       (Storage.getItem
          (Storage.persist bool stringifyBool (Storage.Holding entry) false true))
       false = true)
  /\ Storage.initialize bool parseBool
       (Storage.getItem
          (Storage.persist bool stringifyBool Storage.Unavailable false true))
       false = false
  /\ (forall s,
        Storage.initialize bool parseBool
          (Storage.getItem (Storage.persist bool stringifyBool s true true))
          false
        = Storage.initialize bool parseBool (Storage.getItem s) false).
Proof.
  apply (stored_state_round_trip bool parseBool stringifyBool true false).
  - reflexivity.
  - discriminate.
Defined.

